(** * Call-graph builder of libsolidity/analysis/FunctionCallGraph.cpp

    A shallow embedding of [FunctionCallGraphBuilder] and the properties of
    the graphs it builds.  The builder is a visitor over a resolved AST: the
    AST nodes it overrides ([Identifier], [NewExpression], [MemberAccess],
    [ModifierInvocation]) are kept with the annotations the code reads, every
    other node kind is a plain inner node whose children are visited in
    order. *)

From stdpp Require Import gmap strings list fin_maps.

Open Scope Z_scope.

#[local] Set Warnings "-clear-no-such-hyp".

(** ** Data model *)

(** [VirtualLookup], the "required lookup" annotation of a reference. *)
Inductive VirtualLookup := Static | Virtual | Super.

(** [FunctionCallGraphBuilder::SpecialNode], the synthetic dispatch nodes. *)
Inductive SpecialNode :=
  | EntryCreation
  | InternalCreationDispatch
  | InternalDispatch
  | Entry.

(** [Node = variant<ASTNode const*, SpecialNode>].  Nodes of the AST are
    compared by their [id()] (an [int64_t]) everywhere in the graph, so a
    pointer to a declaration is represented by that id. *)
Inductive Node :=
  | ASTNodeRef (id : Z)
  | Special (s : SpecialNode).

#[global] Instance VirtualLookup_eq_dec : EqDecision VirtualLookup.
Proof. solve_decision. Defined.

#[global] Instance SpecialNode_eq_dec : EqDecision SpecialNode.
Proof. solve_decision. Defined.

#[global] Instance Node_eq_dec : EqDecision Node.
Proof. solve_decision. Defined.

Definition SpecialNode_to_nat (s : SpecialNode) : nat :=
  match s with
  | EntryCreation => 0
  | InternalCreationDispatch => 1
  | InternalDispatch => 2
  | Entry => 3
  end%nat.

Definition SpecialNode_of_nat (n : nat) : option SpecialNode :=
  match n with
  | 0 => Some EntryCreation
  | 1 => Some InternalCreationDispatch
  | 2 => Some InternalDispatch
  | 3 => Some Entry
  | _ => None
  end%nat.

#[global] Instance SpecialNode_countable : Countable SpecialNode.
Proof.
  refine (inj_countable SpecialNode_to_nat SpecialNode_of_nat _).
  intros []; reflexivity.
Defined.

Definition Node_to_sum (n : Node) : Z + SpecialNode :=
  match n with
  | ASTNodeRef i => inl i
  | Special s => inr s
  end.

Definition Node_of_sum (x : Z + SpecialNode) : Node :=
  match x with
  | inl i => ASTNodeRef i
  | inr s => Special s
  end.

#[global] Instance Node_countable : Countable Node.
Proof.
  refine (inj_countable' Node_to_sum Node_of_sum _).
  intros []; reflexivity.
Defined.

(** The kinds of [FunctionType] the builder tells apart: only [Internal] is
    followed, events have kind [Event]. *)
Inductive FunctionKind :=
  | Internal
  | External
  | Event
  | OtherKind.

#[global] Instance FunctionKind_eq_dec : EqDecision FunctionKind.
Proof. solve_decision. Defined.

(** The [type] annotation of an expression, as far as the [dynamic_cast]s of
    the builder look into it. *)
Inductive Type_ :=
  | FunctionType (kind : FunctionKind)
  | ContractType (contractDefinition : Z) (isSuper : bool)
  | TypeType (actualType : Type_)
  | OtherType.

(** The dynamic class of a referenced declaration.  [FunctionDefinition],
    [ModifierDefinition] and [EventDefinition] derive from
    [CallableDeclaration]. *)
Inductive DeclarationKind :=
  | FunctionDefinition
  | ModifierDefinition
  | EventDefinition
  | VariableDeclaration
  | OtherDeclaration.

#[global] Instance DeclarationKind_eq_dec : EqDecision DeclarationKind.
Proof. solve_decision. Defined.

Record Declaration := mkDeclaration {
  declKind : DeclarationKind;
  declId : Z;
  declName : string
}.

Definition isCallableDeclaration (d : Declaration) : bool :=
  match declKind d with
  | FunctionDefinition | ModifierDefinition | EventDefinition => true
  | _ => false
  end.

(** The AST nodes the builder has a [visit] or [endVisit] for, each with the
    annotations that function reads; [referencedDeclaration] may be null. *)
Inductive NodeKind :=
  | Identifier (referencedDeclaration : option Declaration)
      (requiredLookup : VirtualLookup) (type : Type_) (calledDirectly : bool)
  | NewExpression (typeNameType : Type_)
  | MemberAccess (type : Type_) (referencedDeclaration : option Declaration)
      (requiredLookup : VirtualLookup) (expressionType : Type_)
      (calledDirectly : bool)
  | ModifierInvocation (nameReferencedDeclaration : option Declaration)
      (nameRequiredLookup : VirtualLookup)
  | OtherNode.

(** A subtree of the AST: [accept] calls [visit], then accepts the children
    in order, then calls [endVisit]. *)
#[local] Unset Elimination Schemes.
Inductive ASTNode :=
  | Tree (kind : NodeKind) (children : list ASTNode).
#[local] Set Elimination Schemes.

Record ContractDefinition := mkContractDefinition {
  contractId : Z;
  stateVariables : list ASTNode;
  baseContracts : list ASTNode;
  constructor : option Z;
  definedCallables : list Declaration;
  interfaceFunctionList : list Declaration;
  fallbackFunction : option Z;
  receiveFunction : option Z
}.

(** The contract under analysis with its [annotation()]: the linearized base
    contracts, most derived first. *)
Record Contract := mkContract {
  definition : ContractDefinition;
  linearizedBaseContracts : list ContractDefinition
}.

(** [ContractCallGraph]: the edge map and the set of created contracts. *)
Record ContractCallGraph := mkGraph {
  edges : gmap Node (gset Node);
  createdContracts : gset Z
}.

(** The mutable members of the builder. *)
Record Builder := mkBuilder {
  m_graph : ContractCallGraph;
  m_currentNode : option Node;
  m_currentDispatch : SpecialNode
}.

(** Outcome of a run: a value, a failed [solAssert], or the recursion budget
    of the model used up. *)
Inductive Result (A : Type) :=
  | Done (a : A)
  | AssertionFailure
  | OutOfFuel.
Arguments Done {A} a.
Arguments AssertionFailure {A}.
Arguments OutOfFuel {A}.

Definition bind {A B} (r : Result A) (k : A → Result B) : Result B :=
  match r with
  | Done a => k a
  | AssertionFailure => AssertionFailure
  | OutOfFuel => OutOfFuel
  end.

Notation "x ←! r ; k" := (bind r (λ x, k))
  (at level 100, r at next level, right associativity).

Definition solAssert (c : bool) : Result unit :=
  if c then Done tt else AssertionFailure.

(** ** The builder *)

Definition successors (e : gmap Node (gset Node)) (n : Node) : gset Node :=
  default ∅ (e !! n).

(** An edge [_caller → _callee] of the graph. *)
Definition hasEdge (g : ContractCallGraph) (_caller _callee : Node) : Prop :=
  _callee ∈ successors (edges g) _caller.

(** [m_graph->edges.count(n)] is non-zero. *)
Definition isKey (n : Node) (b : Builder) : bool :=
  bool_decide (n ∈ dom (edges (m_graph b))).

Definition setCurrentNode (n : option Node) (b : Builder) : Builder :=
  mkBuilder (m_graph b) n (m_currentDispatch b).

Definition setCurrentDispatch (s : SpecialNode) (b : Builder) : Builder :=
  mkBuilder (m_graph b) (m_currentNode b) s.

(** [add]: [m_graph->edges[_caller].insert(_callee)].  Indexing the map
    creates the key [_caller] when it is absent; the key [_callee] is not
    created.  The boolean the source returns is dropped at every call. *)
Definition add (_caller _callee : Node) (b : Builder) : Builder :=
  let g := m_graph b in
  mkBuilder
    (mkGraph
       (<[_caller := {[_callee]} ∪ successors (edges g) _caller]> (edges g))
       (createdContracts g))
    (m_currentNode b) (m_currentDispatch b).

(** Modelled from the spec: the default value of the parameter
    [_calledDirectly] of [processFunction] is declared in
    FunctionCallGraph.h, which is not among the sources; the spec says that
    modifiers, the one caller that leaves the argument out, are always
    treated as called directly. *)
Definition processFunction_calledDirectly_default : bool := true.

Section Builder.

(** [CallableDeclaration::resolveVirtual] with one and with two arguments
    and [ContractDefinition::superContract] are members of the AST, not of
    the builder; the builder is defined for any such functions. *)
Variable resolveVirtual : Declaration → Contract → Declaration.
Variable resolveVirtualFrom :
  Declaration → Contract → option Z → Declaration.
Variable superContract : Z → Contract → option Z.

(** The subtree of every callable declaration (parameters, modifier
    invocations, body), by declaration id.  A declaration without an entry
    has no children. *)
Variable callables : gmap Z (list ASTNode).

Variable m_contract : Contract.

Definition childrenOf (_callable : Z) : list ASTNode :=
  default [] (callables !! _callable).

Section Visitor.

(** The recursive call of [processFunction] into [visitCallable]. *)
Variable visitCallable : Z → Builder → Result Builder.

Definition processFunction (_callable : Declaration)
    (_calledDirectly : bool) (b : Builder) : Result Builder :=
  let callee := ASTNodeRef (declId _callable) in
  let b1 :=
    match m_currentNode b with
    | Some current => if _calledDirectly then add current callee b else b
    | None => b
    end in
  let b2 :=
    if _calledDirectly then b1
    else add callee (Special (m_currentDispatch b1))
           (add (Special (m_currentDispatch b1)) callee b1) in
  if isKey callee b2 then Done b2
  else visitCallable (declId _callable) b2.

Definition visit_Identifier (referencedDeclaration : option Declaration)
    (requiredLookup : VirtualLookup) (type : Type_)
    (calledDirectly : bool) (b : Builder) : Result Builder :=
  match referencedDeclaration with
  | Some callable =>
      if isCallableDeclaration callable then
        _ ←! solAssert (bool_decide (requiredLookup = Virtual));
        match type with
        | FunctionType Internal =>
            b' ←! processFunction (resolveVirtual callable m_contract)
                    calledDirectly b;
            _ ←! solAssert (bool_decide (is_Some (m_currentNode b')));
            Done b'
        | _ => Done b
        end
      else Done b
  | None => Done b
  end.

Definition visit_NewExpression (typeNameType : Type_) (b : Builder)
    : Result Builder :=
  match typeNameType with
  | ContractType contractDefinition _ =>
      Done (mkBuilder
              (mkGraph (edges (m_graph b))
                 ({[contractDefinition]} ∪ createdContracts (m_graph b)))
              (m_currentNode b) (m_currentDispatch b))
  | _ => Done b
  end.

Definition endVisit_MemberAccess (type : Type_)
    (referencedDeclaration : option Declaration)
    (requiredLookup : VirtualLookup) (expressionType : Type_)
    (calledDirectly : bool) (b : Builder) : Result Builder :=
  match type, referencedDeclaration with
  | FunctionType Internal, Some functionDef =>
      if bool_decide (declKind functionDef = FunctionDefinition) then
        functionDef' ←!
          (if bool_decide (requiredLookup = Super) then
             match expressionType with
             | TypeType (ContractType contractDefinition isSuper) =>
                 _ ←! solAssert isSuper;
                 Done (resolveVirtualFrom functionDef m_contract
                         (superContract contractDefinition m_contract))
             | _ => Done functionDef
             end
           else
             _ ←! solAssert (bool_decide (requiredLookup = Static));
             Done functionDef);
        processFunction functionDef' calledDirectly b
      else Done b
  | _, _ => Done b
  end.

Definition endVisit_ModifierInvocation
    (nameReferencedDeclaration : option Declaration)
    (requiredLookup : VirtualLookup) (b : Builder) : Result Builder :=
  match nameReferencedDeclaration with
  | Some modifier =>
      if bool_decide (declKind modifier = ModifierDefinition) then
        modifier' ←!
          (if bool_decide (requiredLookup = Virtual) then
             Done (resolveVirtual modifier m_contract)
           else
             _ ←! solAssert (bool_decide (requiredLookup = Static));
             Done modifier);
        processFunction modifier' processFunction_calledDirectly_default b
      else Done b
  | None => Done b
  end.

(** The [visit] overrides; each returns [true], so the children of the
    node are always visited. *)
Definition visit (k : NodeKind) (b : Builder) : Result Builder :=
  match k with
  | Identifier d l t c => visit_Identifier d l t c b
  | NewExpression t => visit_NewExpression t b
  | _ => Done b
  end.

(** The [endVisit] overrides. *)
Definition endVisit (k : NodeKind) (b : Builder) : Result Builder :=
  match k with
  | MemberAccess t d l e c => endVisit_MemberAccess t d l e c b
  | ModifierInvocation d l => endVisit_ModifierInvocation d l b
  | _ => Done b
  end.

(** [node.accept( *this )] of the AST. *)
Fixpoint accept (n : ASTNode) (b : Builder) {struct n} : Result Builder :=
  match n with
  | Tree kind children =>
      b1 ←! visit kind b;
      b2 ←! (fix listAccept (l : list ASTNode) (b : Builder)
                 : Result Builder :=
               match l with
               | [] => Done b
               | c :: l' => b' ←! accept c b; listAccept l' b'
               end) children b1;
      endVisit kind b2
  end.

Fixpoint listAccept (l : list ASTNode) (b : Builder) : Result Builder :=
  match l with
  | [] => Done b
  | c :: l' => b' ←! accept c b; listAccept l' b'
  end.

End Visitor.

(** [visitCallable]; [_callable->accept( *this )] walks the children of the
    declaration.  [fuel] bounds the nesting of calls. *)
Fixpoint visitCallable (fuel : nat) (_callable : Z) (b : Builder)
    : Result Builder :=
  match fuel with
  | O => OutOfFuel
  | S fuel' =>
      _ ←! solAssert (negb (isKey (ASTNodeRef _callable) b));
      let previousNode := m_currentNode b in
      b' ←! listAccept (visitCallable fuel') (childrenOf _callable)
              (setCurrentNode (Some (ASTNodeRef _callable)) b);
      Done (setCurrentNode previousNode b')
  end.

(** One iteration of the loop over the linearized base contracts: the state
    variables, the base-contract specifiers, and then, for a contract with
    a constructor, the edge from the current node to the constructor, the
    walk of the constructor, and the assignment of the constructor to the
    current node, in this order.  The current node is set when
    [*m_currentNode] is read: it is set before the loop and the loop never
    resets it. *)
Definition creationStep (fuel : nat) (contract : ContractDefinition)
    (b : Builder) : Result Builder :=
  b1 ←! listAccept (visitCallable fuel) (stateVariables contract) b;
  b2 ←! listAccept (visitCallable fuel) (baseContracts contract) b1;
  match constructor contract with
  | Some ctor =>
      match m_currentNode b2 with
      | Some current =>
          b3 ←! listAccept (visitCallable fuel) (childrenOf ctor)
                  (add current (ASTNodeRef ctor) b2);
          Done (setCurrentNode (Some (ASTNodeRef ctor)) b3)
      | None => AssertionFailure
      end
  | None => Done b2
  end.

Fixpoint creationLoop (fuel : nat) (l : list ContractDefinition)
    (b : Builder) : Result Builder :=
  match l with
  | [] => Done b
  | contract :: l' =>
      b' ←! creationStep fuel contract b; creationLoop fuel l' b'
  end.

(** One iteration of the loop over the interface functions; [declaration]
    is the declaration of the function type. *)
Definition interfaceStep (fuel : nat) (declaration : Declaration)
    (b : Builder) : Result Builder :=
  if bool_decide (declKind declaration = FunctionDefinition) then
    b' ←! (if isKey (ASTNodeRef (declId declaration)) b then Done b
           else visitCallable fuel (declId declaration) b);
    Done (add (Special Entry) (ASTNodeRef (declId declaration)) b')
  else
    _ ←! solAssert (bool_decide (declKind declaration = VariableDeclaration));
    Done b.

Fixpoint interfaceLoop (fuel : nat) (l : list Declaration) (b : Builder)
    : Result Builder :=
  match l with
  | [] => Done b
  | d :: l' => b' ←! interfaceStep fuel d b; interfaceLoop fuel l' b'
  end.

Definition addEntry (f : option Z) (b : Builder) : Builder :=
  match f with
  | Some f => add (Special Entry) (ASTNodeRef f) b
  | None => b
  end.

Definition initialBuilder : Builder :=
  mkBuilder (mkGraph ∅ ∅) (Some (Special EntryCreation))
    InternalCreationDispatch.

(** The constructor [FunctionCallGraphBuilder(_contract)]. *)
Definition FunctionCallGraphBuilder (fuel : nat) : Result Builder :=
  b1 ←! creationLoop fuel (rev (linearizedBaseContracts m_contract))
          initialBuilder;
  let b2 := setCurrentDispatch InternalDispatch (setCurrentNode None b1) in
  b3 ←! interfaceLoop fuel
          (interfaceFunctionList (definition m_contract)) b2;
  let b4 := add (Special InternalDispatch)
              (Special InternalCreationDispatch) b3 in
  let b5 := addEntry (fallbackFunction (definition m_contract)) b4 in
  let b6 := addEntry (receiveFunction (definition m_contract)) b5 in
  Done (setCurrentNode None b6).

(** [FunctionCallGraphBuilder::create]. *)
Definition create (fuel : nat) : Result ContractCallGraph :=
  b ←! FunctionCallGraphBuilder fuel; Done (m_graph b).

End Builder.

(** ** Virtual resolution *)

(** Modelled from the spec: [resolveVirtual] and [superContract] are defined
    with the AST classes, outside FunctionCallGraph.cpp.  The override of a
    callable in a contract is the callable of that contract with the same
    name; a declaration and its overrides share [declName]. *)
Definition overrideIn (d : Declaration) (c : ContractDefinition)
    : option Declaration :=
  List.find (λ d', bool_decide (declName d' = declName d))
    (definedCallables c).

(** Modelled from the spec: "the most-derived override of that callable in
    the concrete contract's linearized base-contract chain", the chain
    being ordered most derived first. *)
Fixpoint mostDerivedOverride (d : Declaration) (l : list ContractDefinition)
    : option Declaration :=
  match l with
  | [] => None
  | c :: l' =>
      match overrideIn d c with
      | Some d' => Some d'
      | None => mostDerivedOverride d l'
      end
  end.

(** Modelled from the spec: [CallableDeclaration::resolveVirtual] with one
    argument; the callable is "replaced by the most-derived override", and
    stays as it is without an override in the chain. *)
Definition resolveVirtual (d : Declaration) (mostDerived : Contract)
    : Declaration :=
  default d (mostDerivedOverride d (linearizedBaseContracts mostDerived)).

(** Modelled from the spec: "the next base contract above the current one
    in the linearization", if there is one. *)
Fixpoint nextAbove (current : Z) (l : list ContractDefinition)
    : option ContractDefinition :=
  match l with
  | [] => None
  | c :: l' =>
      if bool_decide (contractId c = current) then head l'
      else nextAbove current l'
  end.

(** Modelled from the spec: [ContractDefinition::superContract], the id of
    the next base contract above [current]. *)
Definition superContract (current : Z) (mostDerived : Contract) : option Z :=
  contractId <$> nextAbove current (linearizedBaseContracts mostDerived).

(** Modelled from the spec: [resolveVirtual] with a contract to start from;
    a super reference is "resolved statically to the override present in
    the next base contract above the current one in the linearization (not
    the globally most-derived override)". *)
Definition resolveVirtualFrom (d : Declaration) (mostDerived : Contract)
    (searchStart : option Z) : Declaration :=
  match searchStart with
  | Some start =>
      match List.find (λ c, bool_decide (contractId c = start))
              (linearizedBaseContracts mostDerived) with
      | Some c => default d (overrideIn d c)
      | None => d
      end
  | None => d
  end.

(** ** The comparator with a raw id *)

(** [holds_alternative<SpecialNode>(n)]. *)
Definition holds_SpecialNode (n : Node) : bool :=
  match n with
  | Special _ => true
  | ASTNodeRef _ => false
  end.

(** [get<ASTNode const*>(n)->id()]; [get] does not return on a node of the
    other alternative. *)
Definition get_ASTNode_id (n : Node) : Result Z :=
  match n with
  | ASTNodeRef id => Done id
  | Special _ => AssertionFailure
  end.

(** [CompareByID::operator()(Node const&, int64_t)]. *)
Definition CompareByID_Node_id (_lhs : Node) (_rhs : Z) : Result bool :=
  _ ←! solAssert (negb (holds_SpecialNode _lhs));
  id ←! get_ASTNode_id _lhs;
  Done (bool_decide (id < _rhs)).

(** [CompareByID::operator()(int64_t, Node const&)]. *)
Definition CompareByID_id_Node (_lhs : Z) (_rhs : Node) : Result bool :=
  _ ←! solAssert (negb (holds_SpecialNode _rhs));
  id ←! get_ASTNode_id _rhs;
  Done (bool_decide (_lhs < id)).

#[global] Instance hasEdge_dec g a b : Decision (hasEdge g a b).
Proof. unfold hasEdge. apply _. Defined.

(** ** Example contracts *)

(** The graph of a contract under the modelled virtual resolution. *)
Definition createGraph (callables : gmap Z (list ASTNode))
    (contract : Contract) (fuel : nat) : Result ContractCallGraph :=
  create resolveVirtual resolveVirtualFrom superContract callables contract
    fuel.

(** A reference to [d] by its name, as the callee of a call or as a
    function value. *)
Definition identifier (d : Declaration) (calledDirectly : bool) : ASTNode :=
  Tree (Identifier (Some d) Virtual (FunctionType Internal) calledDirectly) [].

(** A call expression with its callee, and a block of statements. *)
Definition functionCall (callee : ASTNode) : ASTNode :=
  Tree OtherNode [callee].

Definition block (statements : list ASTNode) : ASTNode :=
  Tree OtherNode statements.

(** [contract A { constructor() { f(); } function f() internal {} }] *)
Module DirectCall.
Definition f : Declaration := mkDeclaration FunctionDefinition 20 "f()".
Definition A : ContractDefinition :=
  mkContractDefinition 1 [] [] (Some 10) [f] [] None None.
Definition contract : Contract := mkContract A [A].
Definition callables : gmap Z (list ASTNode) :=
  {[ 10 := [block [functionCall (identifier f true)]];
     20 := [block []] ]}.
End DirectCall.

(** [function f() public { f(); }], and [g] and [h] calling each other. *)
Module Recursion.
Definition f : Declaration := mkDeclaration FunctionDefinition 20 "f()".
Definition g : Declaration := mkDeclaration FunctionDefinition 30 "g()".
Definition h : Declaration := mkDeclaration FunctionDefinition 40 "h()".
Definition R : ContractDefinition :=
  mkContractDefinition 1 [] [] None [f; g; h] [f; g] None None.
Definition contract : Contract := mkContract R [R].
Definition callables : gmap Z (list ASTNode) :=
  {[ 20 := [block [functionCall (identifier f true)]];
     30 := [block [functionCall (identifier h true)]];
     40 := [block [functionCall (identifier g true)]] ]}.
End Recursion.

(** [contract A { function f() internal virtual {} }] and
    [contract B is A { function f() internal override {}
                       function g() public { f(); super.f(); } }] *)
Module Override.
Definition fA : Declaration := mkDeclaration FunctionDefinition 21 "f()".
Definition fB : Declaration := mkDeclaration FunctionDefinition 22 "f()".
Definition g : Declaration := mkDeclaration FunctionDefinition 23 "g()".
Definition A : ContractDefinition :=
  mkContractDefinition 1 [] [] None [fA] [] None None.
Definition B : ContractDefinition :=
  mkContractDefinition 2 [] [Tree OtherNode []] None [fB; g] [g] None None.
Definition contract : Contract := mkContract B [B; A].
Definition superKeyword : ASTNode :=
  Tree (Identifier (Some (mkDeclaration OtherDeclaration 3 "super")) Static
          (TypeType (ContractType 2 true)) false) [].
Definition superAccess : ASTNode :=
  Tree (MemberAccess (FunctionType Internal) (Some fA) Super
          (TypeType (ContractType 2 true)) true) [superKeyword].
Definition callables : gmap Z (list ASTNode) :=
  {[ 21 := [block []];
     22 := [block []];
     23 := [block [functionCall (identifier fA true);
                   functionCall superAccess]] ]}.
End Override.

(** A constructor that stores [k] in a function-typed variable, and a public
    function [h] that does the same with [g]. *)
Module Indirect.
Definition h : Declaration := mkDeclaration FunctionDefinition 30 "h()".
Definition g : Declaration := mkDeclaration FunctionDefinition 40 "g()".
Definition k : Declaration := mkDeclaration FunctionDefinition 50 "k()".
Definition I : ContractDefinition :=
  mkContractDefinition 1 [] [] (Some 10) [h; g; k] [h] None None.
Definition contract : Contract := mkContract I [I].
Definition callables : gmap Z (list ASTNode) :=
  {[ 10 := [block [Tree OtherNode [identifier k false]]];
     30 := [block [Tree OtherNode [identifier g false]]];
     40 := [block []];
     50 := [block []] ]}.
End Indirect.

(** [contract E {}] *)
Module Empty.
Definition E : ContractDefinition :=
  mkContractDefinition 1 [] [] None [] [] None None.
Definition contract : Contract := mkContract E [E].
End Empty.

(** A public function [f], a public state variable [x], a fallback and a
    receive function. *)
Module Interface.
Definition f : Declaration := mkDeclaration FunctionDefinition 20 "f()".
Definition x : Declaration := mkDeclaration VariableDeclaration 60 "x".
Definition W : ContractDefinition :=
  mkContractDefinition 1 [Tree OtherNode []] [] None [f] [f; x]
    (Some 70) (Some 80).
Definition contract : Contract := mkContract W [W].
Definition callables : gmap Z (list ASTNode) :=
  {[ 20 := [block []]; 70 := [block []]; 80 := [block []] ]}.
End Interface.

(** [contract N { constructor() { new C(); } }], [C] having id 5. *)
Module Instantiation.
Definition N : ContractDefinition :=
  mkContractDefinition 1 [] [] (Some 10) [] [] None None.
Definition contract : Contract := mkContract N [N].
Definition newC : ASTNode :=
  Tree (NewExpression (ContractType 5 false)) [Tree OtherNode []].
Definition callables : gmap Z (list ASTNode) :=
  {[ 10 := [block [functionCall newC]] ]}.
End Instantiation.

(** A public function [f] with an invocation of the modifier [m]; the lookup
    tag of the invocation is a parameter. *)
Module Modifier.
Definition f : Declaration := mkDeclaration FunctionDefinition 20 "f()".
Definition m : Declaration := mkDeclaration ModifierDefinition 25 "m()".
Definition M : ContractDefinition :=
  mkContractDefinition 1 [] [] None [f; m] [f] None None.
Definition contract : Contract := mkContract M [M].
Definition callables (lookup : VirtualLookup) : gmap Z (list ASTNode) :=
  {[ 20 := [Tree (ModifierInvocation (Some m) lookup) []; block []];
     25 := [block []] ]}.
End Modifier.

(** A public function [g] with a member access to the internal function [f]
    that is tagged [Super] although its expression is not a contract type
    name; and one tagged [Virtual]. *)
Module TaggedAccess.
Definition f : Declaration := mkDeclaration FunctionDefinition 21 "f()".
Definition g : Declaration := mkDeclaration FunctionDefinition 23 "g()".
Definition T : ContractDefinition :=
  mkContractDefinition 1 [] [] None [f; g] [g] None None.
Definition contract : Contract := mkContract T [T].
Definition access (lookup : VirtualLookup) (expressionType : Type_)
    : ASTNode :=
  Tree (MemberAccess (FunctionType Internal) (Some f) lookup expressionType
          true) [Tree OtherNode []].
Definition callables (lookup : VirtualLookup) (expressionType : Type_)
    : gmap Z (list ASTNode) :=
  {[ 21 := [block []];
     23 := [block [functionCall (access lookup expressionType)]] ]}.
End TaggedAccess.

(** ** Notions used in the proofs *)

(** [extends b b']: what a walk that starts in [b] and ends in [b'] may have
    done.  The traversal context is restored, keys, edges and created
    contracts are only added, and the successors of [Entry] are untouched
    unless [Entry] is the current node or the current dispatch node. *)
Record extends (b b' : Builder) : Prop := mkExtends {
  ext_node : m_currentNode b' = m_currentNode b;
  ext_dispatch : m_currentDispatch b' = m_currentDispatch b;
  ext_keys : dom (edges (m_graph b)) ⊆ dom (edges (m_graph b'));
  ext_edges : ∀ n,
    successors (edges (m_graph b)) n ⊆ successors (edges (m_graph b')) n;
  ext_created :
    createdContracts (m_graph b) ⊆ createdContracts (m_graph b');
  ext_entry :
    m_currentNode b ≠ Some (Special Entry) → m_currentDispatch b ≠ Entry →
    successors (edges (m_graph b')) (Special Entry) =
    successors (edges (m_graph b)) (Special Entry)
}.

(** The callables with children that are not yet keys of the edge map: the
    number of these bounds the depth of the remaining descent. *)
Definition pendingSet (callables : gmap Z (list ASTNode)) (b : Builder)
    : gset Z :=
  filter (λ c, ASTNodeRef c ∉ dom (edges (m_graph b))) (dom callables).

Definition pending (callables : gmap Z (list ASTNode)) (b : Builder) : nat :=
  size (pendingSet callables b).

(** A walk from [b] may call [visitCallable] with budget [n]: whenever it
    does, the current node has just become a key. *)
Definition safe (callables : gmap Z (list ASTNode)) (n : nat) (b : Builder)
    : Prop :=
  ∀ b', extends b b' →
    match m_currentNode b with
    | Some current =>
        current ∈ dom (edges (m_graph b')) → (pending callables b' < n)%nat
    | None => (pending callables b' < n)%nat
    end.

(** The targets of the [Entry] edges the interface loop adds. *)
Definition interfaceTargets (l : list Declaration) : gset Node :=
  list_to_set
    ((λ d, ASTNodeRef (declId d)) <$>
     filter (λ d, declKind d = FunctionDefinition) l).

Definition optionalTarget (f : option Z) : gset Node :=
  match f with
  | Some f => {[ASTNodeRef f]}
  | None => ∅
  end.

(** ** Further parts of the builder *)

(** [get<SpecialNode>(n)]; [get] does not return on a node of the other
    alternative. *)
Definition get_SpecialNode (n : Node) : Result SpecialNode :=
  match n with
  | Special s => Done s
  | ASTNodeRef _ => AssertionFailure
  end.

Section CompareByID.

(** The positions of the two alternatives in the variant [Node] and the
    values of the enumerators of [SpecialNode] are fixed by the header
    FunctionCallGraph.h; the comparator is defined for any. *)
Variable indexOfASTNode indexOfSpecialNode : nat.
Variable valueOf : SpecialNode → Z.

(** [n.index()]. *)
Definition index (n : Node) : nat :=
  match n with
  | ASTNodeRef _ => indexOfASTNode
  | Special _ => indexOfSpecialNode
  end.

(** [CompareByID::operator()(Node const&, Node const&)]. *)
Definition CompareByID_Node_Node (_lhs _rhs : Node) : Result bool :=
  if bool_decide (index _lhs ≠ index _rhs) then
    Done (bool_decide (index _lhs < index _rhs)%nat)
  else if holds_SpecialNode _lhs then
    l ←! get_SpecialNode _lhs;
    r ←! get_SpecialNode _rhs;
    Done (bool_decide (valueOf l < valueOf r))
  else
    l ←! get_ASTNode_id _lhs;
    r ←! get_ASTNode_id _rhs;
    Done (bool_decide (l < r)).

End CompareByID.

(** The value [add] returns: [insert(_callee).second], whether the edge is
    new. *)
Definition add_inserted (_caller _callee : Node) (b : Builder) : bool :=
  bool_decide (_callee ∉ successors (edges (m_graph b)) _caller).

(** [contract A { constructor() {} }] and
    [contract B is A { constructor() {} }] *)
Module Constructors.
Definition A : ContractDefinition :=
  mkContractDefinition 1 [] [] (Some 11) [] [] None None.
Definition B : ContractDefinition :=
  mkContractDefinition 2 [] [Tree OtherNode []] (Some 12) [] [] None None.
Definition contract : Contract := mkContract B [B; A].
Definition callables : gmap Z (list ASTNode) :=
  {[ 11 := [block []]; 12 := [block []] ]}.
End Constructors.

(** [contract A { constructor(uint) {} }] and
    [contract B is A(f()) { constructor() {}
                            function f() internal returns (uint) {} }] *)
Module BaseArguments.
Definition f : Declaration := mkDeclaration FunctionDefinition 20 "f()".
Definition A : ContractDefinition :=
  mkContractDefinition 1 [] [] (Some 11) [] [] None None.
Definition specifier : ASTNode :=
  Tree OtherNode [Tree OtherNode []; functionCall (identifier f true)].
Definition B : ContractDefinition :=
  mkContractDefinition 2 [] [specifier] (Some 12) [f] [] None None.
Definition contract : Contract := mkContract B [B; A].
Definition callables : gmap Z (list ASTNode) :=
  {[ 11 := [block []]; 12 := [block []]; 20 := [block []] ]}.
End BaseArguments.

(** An interface list with an entry that is neither a function nor a
    variable. *)
Module BadInterface.
Definition f : Declaration := mkDeclaration FunctionDefinition 20 "f()".
Definition e : Declaration := mkDeclaration EventDefinition 90 "e()".
Definition W : ContractDefinition :=
  mkContractDefinition 1 [] [] None [f] [f; e] None None.
Definition contract : Contract := mkContract W [W].
Definition callables : gmap Z (list ASTNode) := {[ 20 := [block []] ]}.
End BadInterface.

(** [allKinds P t]: every node of the subtree [t] has a kind with [P]. *)
#[local] Unset Elimination Schemes.
Inductive allKinds (P : NodeKind → Prop) : ASTNode → Prop :=
  | allKinds_Tree kind children :
      P kind → Forall (allKinds P) children →
      allKinds P (Tree kind children).
#[local] Set Elimination Schemes.

(** Every subtree the builder may walk for [contract] has [allKinds P]: the
    children of the callables, and the state variables and base-contract
    specifiers of the linearized base contracts. *)
Definition programKinds (P : NodeKind → Prop)
    (callables : gmap Z (list ASTNode)) (contract : Contract) : Prop :=
  (∀ c l, callables !! c = Some l → Forall (allKinds P) l)
  ∧ Forall (λ cd, Forall (allKinds P) (stateVariables cd)
                  ∧ Forall (allKinds P) (baseContracts cd))
      (linearizedBaseContracts contract).

(** A builder state whose graph has [G], whose current node, if set, has
    [okNode], and whose dispatch node has [okDispatch]. *)
Definition keeps (G : ContractCallGraph → Prop) (okNode : Node → Prop)
    (okDispatch : SpecialNode → Prop) (b : Builder) : Prop :=
  G (m_graph b)
  ∧ (∀ current, m_currentNode b = Some current → okNode current)
  ∧ okDispatch (m_currentDispatch b).

(** [someKind P t]: some node of the subtree [t] has a kind with [P]. *)
#[local] Unset Elimination Schemes.
Inductive someKind (P : NodeKind → Prop) : ASTNode → Prop :=
  | someKind_here kind children : P kind → someKind P (Tree kind children)
  | someKind_child kind children t :
      t ∈ children → someKind P t → someKind P (Tree kind children).
#[local] Set Elimination Schemes.

(** The callable a node refers to and whether it is called directly, for
    the nodes that [visit(Identifier)], [endVisit(MemberAccess)] and
    [endVisit(ModifierInvocation)] hand to [processFunction]. *)
Definition referenceTarget
    (rv : Declaration → Contract → Declaration)
    (rvf : Declaration → Contract → option Z → Declaration)
    (sc : Z → Contract → option Z) (contract : Contract) (k : NodeKind)
    : option (Declaration * bool) :=
  match k with
  | Identifier (Some d) Virtual (FunctionType Internal) direct =>
      if isCallableDeclaration d then Some (rv d contract, direct) else None
  | MemberAccess (FunctionType Internal) (Some d) lookup e direct =>
      if bool_decide (declKind d = FunctionDefinition) then
        match lookup, e with
        | Static, _ => Some (d, direct)
        | Super, TypeType (ContractType C true) =>
            Some (rvf d contract (sc C contract), direct)
        | Super, TypeType (ContractType C false) => None
        | Super, _ => Some (d, direct)
        | Virtual, _ => None
        end
      else None
  | ModifierInvocation (Some m) lookup =>
      if bool_decide (declKind m = ModifierDefinition) then
        match lookup with
        | Virtual =>
            Some (rv m contract, processFunction_calledDirectly_default)
        | Static => Some (m, processFunction_calledDirectly_default)
        | Super => None
        end
      else None
  | _ => None
  end.

(** A node of kind [k] was visited between the states [b] and [b'] of a
    walk: [visit] ran in a state reached from [b], [endVisit] later, and
    the walk went on to [b']. *)
Definition visitedBetween
    (rv : Declaration → Contract → Declaration)
    (rvf : Declaration → Contract → option Z → Declaration)
    (sc : Z → Contract → option Z) (contract : Contract)
    (V : Z → Builder → Result Builder) (k : NodeKind) (b b' : Builder)
    : Prop :=
  ∃ b0 b1 b2 b3,
    extends b b0 ∧ visit rv contract V k b0 = Done b1
    ∧ extends b1 b2 ∧ endVisit rv rvf sc contract V k b2 = Done b3
    ∧ extends b3 b'.

(** A node that hands no callable with the id [u] to [processFunction]. *)
Definition refersNotTo
    (rv : Declaration → Contract → Declaration)
    (rvf : Declaration → Contract → option Z → Declaration)
    (sc : Z → Contract → option Z) (contract : Contract) (u : Z)
    (k : NodeKind) : Prop :=
  ∀ d direct,
    referenceTarget rv rvf sc contract k = Some (d, direct) → declId d ≠ u.

(** The shapes of the edges the builder inserts: a declaration is reached
    from any node; a dispatch node of internal calls is reached from
    declarations; and [InternalCreationDispatch] from [InternalDispatch]. *)
Definition edgeShape (_caller _callee : Node) : bool :=
  match _caller, _callee with
  | _, ASTNodeRef _ => true
  | ASTNodeRef _, Special InternalCreationDispatch => true
  | ASTNodeRef _, Special InternalDispatch => true
  | Special InternalDispatch, Special InternalCreationDispatch => true
  | _, _ => false
  end.

(** A node on which no [visit] and no [endVisit] of the builder acts: an
    identifier that refers to no callable or, tagged [Virtual], to one that
    is not of internal function type; a new-expression of something else
    than a contract; a member access that is not of internal function type
    or does not refer to a function definition; a modifier invocation whose
    name does not refer to a modifier definition; a node of another kind. *)
Definition refersToNothing (k : NodeKind) : Prop :=
  match k with
  | Identifier None _ _ _ => True
  | Identifier (Some d) l t _ =>
      isCallableDeclaration d = false
      ∨ (l = Virtual ∧ t ≠ FunctionType Internal)
  | NewExpression t => ∀ C isSuper, t ≠ ContractType C isSuper
  | MemberAccess t d _ _ _ =>
      t ≠ FunctionType Internal
      ∨ (∀ f, d = Some f → declKind f ≠ FunctionDefinition)
  | ModifierInvocation d _ =>
      ∀ m, d = Some m → declKind m ≠ ModifierDefinition
  | OtherNode => True
  end.

(** [subgraph g g']: every edge and every created contract of [g] is one
    of [g']. *)
Definition subgraph (g g' : ContractCallGraph) : Prop :=
  (∀ x y, hasEdge g x y → hasEdge g' x y)
  ∧ createdContracts g ⊆ createdContracts g'.

(** [chained g x l]: the graph has the edges [x → l0 → l1 → ...]. *)
Fixpoint chained (g : ContractCallGraph) (x : Node) (l : list Node) : Prop :=
  match l with
  | [] => True
  | y :: l' => hasEdge g x y ∧ chained g y l'
  end.

(** The constructors of the contracts of [l], in the order of [l]. *)
Definition constructorsOf (l : list ContractDefinition) : list Node :=
  ASTNodeRef <$> omap constructor l.

Ltac by_computation := apply (bool_decide_unpack _); vm_compute; exact I.

(** ** Facts about [add] and the growth of the graph *)

Lemma ASTNode_ind (P : ASTNode → Prop) :
  (∀ kind children, Forall P children → P (Tree kind children)) →
  ∀ n, P n.
Proof.
  intros step. fix IH 1. intros [kind children]. apply step.
  induction children as [|c l IHl]; constructor; [apply IH | exact IHl].
Qed.

Lemma bind_Done {A B} (r : Result A) (k : A → Result B) (y : B) :
  bind r k = Done y → ∃ x, r = Done x ∧ k x = Done y.
Proof. destruct r; simpl; intros H; try discriminate. eauto. Qed.

Lemma bind_not_OutOfFuel {A B} (r : Result A) (k : A → Result B) :
  r ≠ OutOfFuel → (∀ x, r = Done x → k x ≠ OutOfFuel) →
  bind r k ≠ OutOfFuel.
Proof. destruct r; simpl; intros H1 H2; auto; discriminate. Qed.

Lemma solAssert_Done c u : solAssert c = Done u → c = true.
Proof. destruct c; simpl; [reflexivity | discriminate]. Qed.

Lemma solAssert_not_OutOfFuel c : solAssert c ≠ OutOfFuel.
Proof. destruct c; discriminate. Qed.

Lemma successors_add x y b n :
  successors (edges (m_graph (add x y b))) n =
  if decide (x = n) then {[y]} ∪ successors (edges (m_graph b)) n
  else successors (edges (m_graph b)) n.
Proof.
  unfold successors, add; simpl. rewrite lookup_insert.
  destruct (decide (x = n)) as [->|]; reflexivity.
Qed.

Lemma dom_add x y b :
  dom (edges (m_graph (add x y b))) = {[x]} ∪ dom (edges (m_graph b)).
Proof. unfold add; simpl. apply dom_insert_L. Qed.

Lemma isKey_true n b : isKey n b = true ↔ n ∈ dom (edges (m_graph b)).
Proof. unfold isKey. apply bool_decide_eq_true. Qed.

Lemma isKey_false n b : isKey n b = false ↔ n ∉ dom (edges (m_graph b)).
Proof. unfold isKey. apply bool_decide_eq_false. Qed.

Lemma extends_refl b : extends b b.
Proof. constructor; auto. Qed.

Lemma extends_trans b1 b2 b3 : extends b1 b2 → extends b2 b3 → extends b1 b3.
Proof.
  intros [N1 D1 K1 E1 C1 T1] [N2 D2 K2 E2 C2 T2]. constructor.
  - congruence.
  - congruence.
  - etrans; eassumption.
  - intros n. etrans; [apply E1 | apply E2].
  - etrans; eassumption.
  - intros Hn Hd. rewrite T2, T1; auto; congruence.
Qed.

Lemma add_extends x y b :
  (x = Special Entry →
   m_currentNode b = Some (Special Entry) ∨ m_currentDispatch b = Entry) →
  extends b (add x y b).
Proof.
  intros Hx. constructor.
  - reflexivity.
  - reflexivity.
  - rewrite dom_add. set_solver.
  - intros n. rewrite successors_add. destruct (decide (x = n)); set_solver.
  - reflexivity.
  - intros Hn Hd. rewrite successors_add.
    destruct (decide (x = Special Entry)) as [e|]; [|reflexivity].
    destruct (Hx e); contradiction.
Qed.

Lemma setCurrentNode_restore b b' n :
  extends (setCurrentNode n b) b' →
  n ≠ Some (Special Entry) →
  extends b (setCurrentNode (m_currentNode b) b').
Proof.
  intros [N D K E C Y] Hn. constructor; simpl in *; auto.
Qed.

Lemma accept_unfold rv rvf sc contract V kind children b :
  accept rv rvf sc contract V (Tree kind children) b =
  (b1 ←! visit rv contract V kind b;
   b2 ←! listAccept rv rvf sc contract V children b1;
   endVisit rv rvf sc contract V kind b2).
Proof. reflexivity. Qed.

Section Walk.

Variable rv : Declaration → Contract → Declaration.
Variable rvf : Declaration → Contract → option Z → Declaration.
Variable sc : Z → Contract → option Z.
Variable callables : gmap Z (list ASTNode).
Variable contract : Contract.

Section BodyWalk.

Variable V : Z → Builder → Result Builder.
Hypothesis V_extends : ∀ c b b', V c b = Done b' → extends b b'.

Lemma processFunction_extends d direct b b' :
  processFunction V d direct b = Done b' → extends b b'.
Proof using V_extends.
  unfold processFunction.
  set (callee := ASTNodeRef (declId d)).
  set (b1 := match m_currentNode b with
             | Some current => if direct then add current callee b else b
             | None => b
             end).
  assert (E1 : extends b b1).
  { subst b1. destruct (m_currentNode b) as [cur|] eqn:Hcur;
      [|apply extends_refl].
    destruct direct; [|apply extends_refl].
    apply add_extends. intros ->. left. exact Hcur. }
  set (b2 := if direct then b1
             else add callee (Special (m_currentDispatch b1))
                    (add (Special (m_currentDispatch b1)) callee b1)).
  assert (E2 : extends b1 b2).
  { subst b2. destruct direct; [apply extends_refl|].
    eapply extends_trans.
    - apply (add_extends (Special (m_currentDispatch b1)) callee).
      intros [= e]. right. exact e.
    - apply add_extends. subst callee. discriminate. }
  destruct (isKey callee b2).
  - intros [= <-]. eauto using extends_trans.
  - intros HV. apply V_extends in HV. eauto using extends_trans.
Qed.

Lemma visit_extends k b b' :
  visit rv contract V k b = Done b' → extends b b'.
Proof using V_extends.
  destruct k as [d l t c|t| | |]; simpl;
    try (intros [= <-]; apply extends_refl).
  - unfold visit_Identifier.
    destruct d as [d|]; [|intros [= <-]; apply extends_refl].
    destruct (isCallableDeclaration d);
      [|intros [= <-]; apply extends_refl].
    intros H. apply bind_Done in H as (_ & _ & H0).
    destruct t as [[]| | |]; try (injection H0 as <-; apply extends_refl).
    apply bind_Done in H0 as (b1 & H1 & H2).
    apply bind_Done in H2 as (_ & _ & [= <-]).
    eapply processFunction_extends, H1.
  - unfold visit_NewExpression.
    destruct t; intros [= <-]; try apply extends_refl.
    constructor; simpl; auto. apply union_subseteq_r.
Qed.

Lemma endVisit_extends k b b' :
  endVisit rv rvf sc contract V k b = Done b' → extends b b'.
Proof using V_extends.
  destruct k as [|t|t d l e c|d l|]; simpl;
    try (intros [= <-]; apply extends_refl).
  - unfold endVisit_MemberAccess.
    destruct t as [[]| | |]; try (intros [= <-]; apply extends_refl).
    destruct d as [d|]; [|intros [= <-]; apply extends_refl].
    case_bool_decide; [|intros [= <-]; apply extends_refl].
    intros Hr. apply bind_Done in Hr as (d' & _ & Hr).
    eapply processFunction_extends, Hr.
  - unfold endVisit_ModifierInvocation.
    destruct d as [d|]; [|intros [= <-]; apply extends_refl].
    case_bool_decide; [|intros [= <-]; apply extends_refl].
    intros Hr. apply bind_Done in Hr as (d' & _ & Hr).
    eapply processFunction_extends, Hr.
Qed.

Lemma accept_extends n :
  ∀ b b', accept rv rvf sc contract V n b = Done b' → extends b b'.
Proof using V_extends.
  induction n as [kind children IH] using ASTNode_ind.
  intros b b'. rewrite accept_unfold. intros H.
  apply bind_Done in H as (b1 & H1 & H0).
  apply bind_Done in H0 as (b2 & H2 & H3).
  apply visit_extends in H1. apply endVisit_extends in H3.
  assert (E : extends b1 b2); [|eauto using extends_trans].
  clear H1 H3. revert b1 H2.
  induction IH as [|c l Hc _ IHl]; simpl; intros b1 H2.
  - injection H2 as <-. apply extends_refl.
  - apply bind_Done in H2 as (bc & Hbc & H2).
    eauto using extends_trans.
Qed.

Lemma listAccept_extends l :
  ∀ b b', listAccept rv rvf sc contract V l b = Done b' → extends b b'.
Proof using V_extends.
  induction l as [|c l IHl]; simpl; intros b b' H.
  - injection H as <-. apply extends_refl.
  - apply bind_Done in H as (bc & Hbc & H0).
    apply accept_extends in Hbc. eauto using extends_trans.
Qed.

End BodyWalk.

Lemma visitCallable_extends fuel :
  ∀ c b b',
    visitCallable rv rvf sc callables contract fuel c b = Done b' →
    extends b b'.
Proof.
  induction fuel as [|fuel IH]; simpl; intros c b b' H; [discriminate|].
  apply bind_Done in H as (_ & _ & H0).
  apply bind_Done in H0 as (b1 & H1 & [= <-]).
  apply listAccept_extends in H1; [|exact IH].
  apply setCurrentNode_restore with (n := Some (ASTNodeRef c));
    [exact H1 | discriminate].
Qed.

End Walk.

(** ** Termination *)

Lemma pending_le_size callables b : (pending callables b ≤ size callables)%nat.
Proof.
  unfold pending, pendingSet. rewrite <- (size_dom (D := gset Z) callables).
  apply subseteq_size. intros c Hc. apply elem_of_filter in Hc. tauto.
Qed.

Lemma pending_decreases callables b b' c :
  is_Some (callables !! c) →
  ASTNodeRef c ∉ dom (edges (m_graph b)) →
  ASTNodeRef c ∈ dom (edges (m_graph b')) →
  dom (edges (m_graph b)) ⊆ dom (edges (m_graph b')) →
  (pending callables b' < pending callables b)%nat.
Proof.
  intros Hc Hb Hb' Hsub. unfold pending. apply subset_size. split.
  - intros x Hx. apply elem_of_filter in Hx as [Hx1 Hx2].
    apply elem_of_filter. split; [|exact Hx2]. intros Hin. apply Hx1, Hsub, Hin.
  - intros Hsup. specialize (Hsup c).
    assert (Hin : c ∈ pendingSet callables b).
    { apply elem_of_filter. split; [exact Hb|]. apply elem_of_dom, Hc. }
    apply Hsup, elem_of_filter in Hin as [Hin _]. contradiction.
Qed.

Lemma safe_extends callables n b b1 :
  safe callables n b → extends b b1 → safe callables n b1.
Proof.
  intros Hs E b' E'. rewrite (ext_node _ _ E).
  apply Hs. eauto using extends_trans.
Qed.

Lemma safe_top callables n b :
  (size callables < n)%nat → safe callables n b.
Proof.
  intros Hn b' _. pose proof (pending_le_size callables b').
  destruct (m_currentNode b); intros; lia.
Qed.

Section Termination.

Variable rv : Declaration → Contract → Declaration.
Variable rvf : Declaration → Contract → option Z → Declaration.
Variable sc : Z → Contract → option Z.
Variable callables : gmap Z (list ASTNode).
Variable contract : Contract.

Section BodyWalk.

Variable V : Z → Builder → Result Builder.
Variable n : nat.
Hypothesis V_extends : ∀ c b b', V c b = Done b' → extends b b'.
Hypothesis V_terminates :
  ∀ c b, (pending callables b < n)%nat → V c b ≠ OutOfFuel.

Lemma processFunction_terminates d direct b :
  safe callables n b → processFunction V d direct b ≠ OutOfFuel.
Proof using V_terminates.
  intros Hs. unfold processFunction.
  set (callee := ASTNodeRef (declId d)).
  destruct direct.
  - destruct (m_currentNode b) as [cur|] eqn:Hcur.
    + destruct (isKey callee (add cur callee b)); [discriminate|].
      apply V_terminates.
      specialize (Hs (add cur callee b)). rewrite Hcur in Hs.
      apply Hs.
      * apply add_extends. intros ->. left. exact Hcur.
      * rewrite dom_add. apply elem_of_union_l, elem_of_singleton. reflexivity.
    + destruct (isKey callee b); [discriminate|].
      apply V_terminates.
      specialize (Hs b (extends_refl b)). rewrite Hcur in Hs. exact Hs.
  - set (b1 := match m_currentNode b with
               | Some _ | _ => b
               end).
    assert (Hk : isKey callee
                   (add callee (Special (m_currentDispatch b1))
                      (add (Special (m_currentDispatch b1)) callee b1))
                 = true).
    { apply isKey_true. rewrite dom_add.
    apply elem_of_union_l, elem_of_singleton. reflexivity. }
    rewrite Hk. discriminate.
Qed.

Lemma visit_terminates k b :
  safe callables n b → visit rv contract V k b ≠ OutOfFuel.
Proof using V_terminates.
  intros Hs. destruct k as [d l t c|t| | |]; simpl; try discriminate.
  - unfold visit_Identifier.
    destruct d as [d|]; [|discriminate].
    destruct (isCallableDeclaration d); [|discriminate].
    apply bind_not_OutOfFuel; [apply solAssert_not_OutOfFuel|].
    intros _ _. destruct t as [[]| | |]; try discriminate.
    apply bind_not_OutOfFuel;
      [apply processFunction_terminates, Hs|].
    intros b1 _. apply bind_not_OutOfFuel;
      [apply solAssert_not_OutOfFuel | discriminate].
  - unfold visit_NewExpression. destruct t; discriminate.
Qed.

Lemma endVisit_terminates k b :
  safe callables n b → endVisit rv rvf sc contract V k b ≠ OutOfFuel.
Proof using V_terminates.
  intros Hs. destruct k as [|t|t d l e c|d l|]; simpl; try discriminate.
  - unfold endVisit_MemberAccess.
    destruct t as [[]| | |]; try discriminate.
    destruct d as [d|]; [|discriminate].
    case_bool_decide; [|discriminate].
    apply bind_not_OutOfFuel.
    + case_bool_decide.
      * destruct e as [| |[]|]; try discriminate.
        apply bind_not_OutOfFuel;
          [apply solAssert_not_OutOfFuel | discriminate].
      * apply bind_not_OutOfFuel;
          [apply solAssert_not_OutOfFuel | discriminate].
    + intros d' _. apply processFunction_terminates, Hs.
  - unfold endVisit_ModifierInvocation.
    destruct d as [d|]; [|discriminate].
    case_bool_decide; [|discriminate].
    apply bind_not_OutOfFuel.
    + case_bool_decide; [discriminate|].
      apply bind_not_OutOfFuel;
        [apply solAssert_not_OutOfFuel | discriminate].
    + intros d' _. apply processFunction_terminates, Hs.
Qed.

Lemma accept_terminates t :
  ∀ b, safe callables n b →
       accept rv rvf sc contract V t b ≠ OutOfFuel.
Proof using V_extends V_terminates.
  induction t as [kind children IH] using ASTNode_ind.
  intros b Hs. rewrite accept_unfold.
  apply bind_not_OutOfFuel; [apply visit_terminates, Hs|].
  intros b1 H1. apply (visit_extends _ _ _ V_extends) in H1.
  assert (Hs1 : safe callables n b1) by eauto using safe_extends.
  apply bind_not_OutOfFuel.
  - clear H1 Hs. revert b1 Hs1.
    induction IH as [|c l Hc _ IHl]; simpl; intros b1 Hs1;
      [discriminate|].
    apply bind_not_OutOfFuel; [apply Hc, Hs1|].
    intros bc Hbc. apply IHl.
    apply (accept_extends _ _ _ _ _ V_extends) in Hbc.
    eauto using safe_extends.
  - intros b2 H2. apply (listAccept_extends _ _ _ _ _ V_extends) in H2.
    apply endVisit_terminates. eauto using safe_extends.
Qed.

Lemma listAccept_terminates l :
  ∀ b, safe callables n b →
       listAccept rv rvf sc contract V l b ≠ OutOfFuel.
Proof using V_extends V_terminates.
  induction l as [|c l IHl]; simpl; intros b Hs; [discriminate|].
  apply bind_not_OutOfFuel; [apply accept_terminates, Hs|].
  intros bc Hbc. apply IHl.
  apply (accept_extends _ _ _ _ _ V_extends) in Hbc.
  eauto using safe_extends.
Qed.

End BodyWalk.

Lemma visitCallable_terminates fuel :
  ∀ c b, (pending callables b < fuel)%nat →
         visitCallable rv rvf sc callables contract fuel c b ≠ OutOfFuel.
Proof.
  induction fuel as [|fuel IH]; intros c b Hp; [lia|]. simpl.
  apply bind_not_OutOfFuel; [apply solAssert_not_OutOfFuel|].
  intros u Hk. apply solAssert_Done, negb_true_iff, isKey_false in Hk.
  apply bind_not_OutOfFuel; [|discriminate].
  unfold childrenOf. destruct (callables !! c) as [body|] eqn:Hc;
    [|discriminate]. simpl.
  apply listAccept_terminates with (n := fuel).
  - apply visitCallable_extends.
  - exact IH.
  - intros b' E. simpl. intros Hin.
    assert ((pending callables b' < pending callables b)%nat); [|lia].
    apply pending_decreases with (c := c); eauto.
    apply (ext_keys _ _ E).
Qed.

End Termination.

(** ** The two phases of the constructor *)

Section Phases.

Variable rv : Declaration → Contract → Declaration.
Variable rvf : Declaration → Contract → option Z → Declaration.
Variable sc : Z → Contract → option Z.
Variable callables : gmap Z (list ASTNode).
Variable contract : Contract.

Abbreviation visitCallable' := (visitCallable rv rvf sc callables contract).
Abbreviation listAccept' fuel :=
  (listAccept rv rvf sc contract (visitCallable' fuel)).

Lemma listAccept_visitCallable_extends fuel l b b' :
  listAccept' fuel l b = Done b' → extends b b'.
Proof. apply listAccept_extends, visitCallable_extends. Qed.

Lemma listAccept_visitCallable_terminates fuel l b :
  (size callables < fuel)%nat → listAccept' fuel l b ≠ OutOfFuel.
Proof.
  intros Hfuel. apply listAccept_terminates with (callables := callables)
    (n := fuel).
  - apply visitCallable_extends.
  - apply visitCallable_terminates.
  - apply safe_top, Hfuel.
Qed.

Lemma visit_visitCallable_terminates fuel k b :
  (size callables < fuel)%nat →
  visit rv contract (visitCallable' fuel) k b ≠ OutOfFuel.
Proof.
  intros Hfuel.
  apply visit_terminates with (callables := callables) (n := fuel).
  - apply visitCallable_terminates.
  - apply safe_top, Hfuel.
Qed.

Lemma endVisit_visitCallable_terminates fuel k b :
  (size callables < fuel)%nat →
  endVisit rv rvf sc contract (visitCallable' fuel) k b ≠ OutOfFuel.
Proof.
  intros Hfuel.
  apply endVisit_terminates with (callables := callables) (n := fuel).
  - apply visitCallable_terminates.
  - apply safe_top, Hfuel.
Qed.

Lemma creationStep_terminates fuel c b :
  (size callables < fuel)%nat →
  creationStep rv rvf sc callables contract fuel c b ≠ OutOfFuel.
Proof.
  intros Hfuel. unfold creationStep.
  apply bind_not_OutOfFuel;
    [apply listAccept_visitCallable_terminates, Hfuel|]. intros b1 _.
  apply bind_not_OutOfFuel;
    [apply listAccept_visitCallable_terminates, Hfuel|]. intros b2 _.
  destruct (constructor c); [|discriminate].
  destruct (m_currentNode b2); [|discriminate].
  apply bind_not_OutOfFuel;
    [apply listAccept_visitCallable_terminates, Hfuel | discriminate].
Qed.

Lemma creationLoop_terminates fuel l :
  (size callables < fuel)%nat →
  ∀ b, creationLoop rv rvf sc callables contract fuel l b ≠ OutOfFuel.
Proof.
  intros Hfuel. induction l as [|c l IHl]; simpl; intros b; [discriminate|].
  apply bind_not_OutOfFuel; [apply creationStep_terminates, Hfuel|].
  intros b' _. apply IHl.
Qed.

Lemma interfaceStep_terminates fuel d b :
  (size callables < fuel)%nat →
  interfaceStep rv rvf sc callables contract fuel d b ≠ OutOfFuel.
Proof.
  intros Hfuel. unfold interfaceStep. case_bool_decide.
  - apply bind_not_OutOfFuel; [|discriminate].
    destruct (isKey _ b); [discriminate|].
    apply visitCallable_terminates.
    pose proof (pending_le_size callables b). lia.
  - apply bind_not_OutOfFuel;
      [apply solAssert_not_OutOfFuel | discriminate].
Qed.

Lemma interfaceLoop_terminates fuel l :
  (size callables < fuel)%nat →
  ∀ b, interfaceLoop rv rvf sc callables contract fuel l b ≠ OutOfFuel.
Proof.
  intros Hfuel. induction l as [|d l IHl]; simpl; intros b; [discriminate|].
  apply bind_not_OutOfFuel; [apply interfaceStep_terminates, Hfuel|].
  intros b' _. apply IHl.
Qed.

Lemma create_terminates fuel :
  (size callables < fuel)%nat →
  create rv rvf sc callables contract fuel ≠ OutOfFuel.
Proof.
  intros Hfuel. unfold create, FunctionCallGraphBuilder.
  apply bind_not_OutOfFuel; [|discriminate].
  apply bind_not_OutOfFuel; [apply creationLoop_terminates, Hfuel|].
  intros b1 _.
  apply bind_not_OutOfFuel;
    [apply interfaceLoop_terminates, Hfuel | discriminate].
Qed.

(** The creation phase never touches the successors of [Entry]. *)
Lemma creationStep_entry fuel c b b' :
  creationStep rv rvf sc callables contract fuel c b = Done b' →
  m_currentNode b ≠ Some (Special Entry) → m_currentDispatch b ≠ Entry →
  successors (edges (m_graph b')) (Special Entry) =
    successors (edges (m_graph b)) (Special Entry)
  ∧ m_currentNode b' ≠ Some (Special Entry)
  ∧ m_currentDispatch b' = m_currentDispatch b.
Proof.
  unfold creationStep. intros H Hn Hd.
  apply bind_Done in H as (b1 & H1 & H).
  apply bind_Done in H as (b2 & H2 & H3).
  apply listAccept_visitCallable_extends in H1, H2.
  pose proof (extends_trans _ _ _ H1 H2) as E.
  destruct (constructor c) as [ctor|].
  - destruct (m_currentNode b2) as [cur|] eqn:Hcur; [|discriminate].
    apply bind_Done in H3 as (b3 & H3 & [= <-]).
    apply listAccept_visitCallable_extends in H3.
    assert (E' : extends b b3).
    { eapply extends_trans; [exact E|].
      eapply extends_trans; [|exact H3].
      apply add_extends. intros ->. left. exact Hcur. }
    simpl. split; [apply (ext_entry _ _ E'); assumption|].
    split; [discriminate | apply (ext_dispatch _ _ E')].
  - injection H3 as <-.
    split; [apply (ext_entry _ _ E); assumption|].
    split; [rewrite (ext_node _ _ E); exact Hn | apply (ext_dispatch _ _ E)].
Qed.

Lemma creationLoop_entry fuel l :
  ∀ b b',
    creationLoop rv rvf sc callables contract fuel l b = Done b' →
    m_currentNode b ≠ Some (Special Entry) → m_currentDispatch b ≠ Entry →
    successors (edges (m_graph b')) (Special Entry) =
    successors (edges (m_graph b)) (Special Entry).
Proof.
  induction l as [|c l IHl]; simpl; intros b b' H Hn Hd.
  - injection H as <-. reflexivity.
  - apply bind_Done in H as (b1 & H1 & H).
    apply creationStep_entry in H1 as (HE & Hn1 & Hd1); [|assumption..].
    rewrite <- HE. apply IHl; [exact H | exact Hn1 | congruence].
Qed.

(** Each interface entry that is a function definition adds its [Entry]
    edge; nothing else changes the successors of [Entry]. *)
Lemma interfaceStep_entry fuel d b b' :
  interfaceStep rv rvf sc callables contract fuel d b = Done b' →
  m_currentNode b = None → m_currentDispatch b ≠ Entry →
  successors (edges (m_graph b')) (Special Entry) =
    interfaceTargets [d] ∪ successors (edges (m_graph b)) (Special Entry)
  ∧ m_currentNode b' = None
  ∧ m_currentDispatch b' = m_currentDispatch b.
Proof.
  unfold interfaceStep, interfaceTargets. intros H Hn Hd.
  rewrite filter_cons, filter_nil. case_bool_decide as Hk.
  - rewrite decide_True by exact Hk.
    apply bind_Done in H as (b1 & H1 & [= <-]).
    assert (E : extends b b1).
    { destruct (isKey _ b).
      - injection H1 as <-. apply extends_refl.
      - eapply visitCallable_extends, H1. }
    rewrite successors_add, decide_True by reflexivity. simpl.
    rewrite (ext_entry _ _ E) by (congruence || assumption).
    split; [set_solver|].
    split; [rewrite (ext_node _ _ E); exact Hn | apply (ext_dispatch _ _ E)].
  - rewrite decide_False by exact Hk.
    apply bind_Done in H as (_ & _ & [= <-]). simpl.
    split; [set_solver | auto].
Qed.

Lemma interfaceLoop_entry fuel l :
  ∀ b b',
    interfaceLoop rv rvf sc callables contract fuel l b = Done b' →
    m_currentNode b = None → m_currentDispatch b ≠ Entry →
    successors (edges (m_graph b')) (Special Entry) =
    interfaceTargets l ∪ successors (edges (m_graph b)) (Special Entry).
Proof.
  induction l as [|d l IHl]; simpl; intros b b' H Hn Hd.
  - injection H as <-. unfold interfaceTargets. simpl. set_solver.
  - apply bind_Done in H as (b1 & H1 & H).
    apply interfaceStep_entry in H1 as (HE & Hn1 & Hd1); [|assumption..].
    apply IHl in H; [|exact Hn1 | congruence].
    rewrite H, HE. unfold interfaceTargets.
    rewrite !filter_cons, filter_nil.
    destruct (decide (declKind d = FunctionDefinition)); simpl; set_solver.
Qed.

End Phases.

(** ** A callable that is a key is not walked again *)

Section Revisit.

Variable rv : Declaration → Contract → Declaration.
Variable rvf : Declaration → Contract → option Z → Declaration.
Variable sc : Z → Contract → option Z.
Variable contract : Contract.
Variable C : Node.

Section BodyWalk.

Variables V V' : Z → Builder → Result Builder.
Hypothesis V_extends : ∀ c b b', V c b = Done b' → extends b b'.
Hypothesis V_agree :
  ∀ c b, C ∈ dom (edges (m_graph b)) → V c b = V' c b.

Lemma processFunction_agree d direct b :
  C ∈ dom (edges (m_graph b)) →
  processFunction V d direct b = processFunction V' d direct b.
Proof using V_agree.
  intros HC. unfold processFunction.
  set (b1 := match m_currentNode b with
             | Some current =>
                 if direct then add current (ASTNodeRef (declId d)) b else b
             | None => b
             end).
  assert (H1 : C ∈ dom (edges (m_graph b1))).
  { subst b1. destruct (m_currentNode b); [|exact HC].
    destruct direct; [|exact HC]. rewrite dom_add.
    apply elem_of_union_r, HC. }
  set (b2 := if direct then b1 else _).
  assert (H2 : C ∈ dom (edges (m_graph b2))).
  { subst b2. destruct direct; [exact H1|]. rewrite !dom_add.
    apply elem_of_union_r, elem_of_union_r, H1. }
  destruct (isKey _ b2); [reflexivity | apply V_agree, H2].
Qed.

Lemma visit_agree k b :
  C ∈ dom (edges (m_graph b)) →
  visit rv contract V k b = visit rv contract V' k b.
Proof using V_agree.
  intros HC. destruct k as [d l t c|t| | |]; simpl; try reflexivity.
  unfold visit_Identifier. destruct d as [d|]; [|reflexivity].
  destruct (isCallableDeclaration d); [|reflexivity].
  destruct (solAssert _); simpl; try reflexivity.
  destruct t as [[]| | |]; try reflexivity.
  rewrite processFunction_agree by exact HC. reflexivity.
Qed.

Lemma endVisit_agree k b :
  C ∈ dom (edges (m_graph b)) →
  endVisit rv rvf sc contract V k b = endVisit rv rvf sc contract V' k b.
Proof using V_agree.
  intros HC. destruct k as [|t|t d l e c|d l|]; simpl; try reflexivity.
  - unfold endVisit_MemberAccess.
    destruct t as [[]| | |]; try reflexivity.
    destruct d as [d|]; [|reflexivity].
    case_bool_decide; [|reflexivity].
    match goal with |- bind ?r _ = _ => destruct r end; simpl;
      try reflexivity.
    apply processFunction_agree, HC.
  - unfold endVisit_ModifierInvocation.
    destruct d as [d|]; [|reflexivity].
    case_bool_decide; [|reflexivity].
    match goal with |- bind ?r _ = _ => destruct r end; simpl;
      try reflexivity.
    apply processFunction_agree, HC.
Qed.

Lemma accept_agree t :
  ∀ b, C ∈ dom (edges (m_graph b)) →
       accept rv rvf sc contract V t b = accept rv rvf sc contract V' t b.
Proof using V_agree V_extends.
  induction t as [kind children IH] using ASTNode_ind.
  intros b HC. rewrite !accept_unfold.
  rewrite <- (visit_agree kind b HC).
  destruct (visit rv contract V kind b) as [b1| |] eqn:H1; simpl;
    try reflexivity.
  apply (visit_extends _ _ _ V_extends) in H1.
  assert (HC1 : C ∈ dom (edges (m_graph b1))) by (apply (ext_keys _ _ H1), HC).
  assert (HL : listAccept rv rvf sc contract V children b1 =
               listAccept rv rvf sc contract V' children b1).
  { clear H1 HC. revert b1 HC1.
    induction IH as [|c l Hc _ IHl]; simpl; intros b1 HC1; [reflexivity|].
    rewrite <- (Hc b1 HC1).
    destruct (accept rv rvf sc contract V c b1) as [bc| |] eqn:Hbc; simpl;
      try reflexivity.
    apply IHl.
    apply (accept_extends _ _ _ _ _ V_extends) in Hbc.
    apply (ext_keys _ _ Hbc), HC1. }
  rewrite <- HL.
  destruct (listAccept rv rvf sc contract V children b1) as [b2| |] eqn:H2;
    simpl; try reflexivity.
  apply endVisit_agree.
  apply (listAccept_extends _ _ _ _ _ V_extends) in H2.
  apply (ext_keys _ _ H2), HC1.
Qed.

Lemma listAccept_agree l :
  ∀ b, C ∈ dom (edges (m_graph b)) →
       listAccept rv rvf sc contract V l b =
       listAccept rv rvf sc contract V' l b.
Proof using V_agree V_extends.
  induction l as [|c l IHl]; simpl; intros b HC; [reflexivity|].
  rewrite <- (accept_agree c b HC).
  destruct (accept rv rvf sc contract V c b) as [bc| |] eqn:Hbc; simpl;
    try reflexivity.
  apply IHl.
  apply (accept_extends _ _ _ _ _ V_extends) in Hbc.
  apply (ext_keys _ _ Hbc), HC.
Qed.

End BodyWalk.

End Revisit.

Lemma visitCallable_agree rv rvf sc callables contract C body fuel :
  ∀ c b,
    ASTNodeRef C ∈ dom (edges (m_graph b)) →
    visitCallable rv rvf sc callables contract fuel c b =
    visitCallable rv rvf sc (<[C := body]> callables) contract fuel c b.
Proof.
  induction fuel as [|fuel IH]; intros c b HC; [reflexivity|]. simpl.
  destruct (decide (c = C)) as [->|Hne].
  - apply isKey_true in HC. rewrite HC. reflexivity.
  - unfold childrenOf. rewrite lookup_insert_ne by congruence.
    destruct (solAssert _); simpl; try reflexivity.
    rewrite (listAccept_agree rv rvf sc contract (ASTNodeRef C)
               (visitCallable rv rvf sc callables contract fuel)
               (visitCallable rv rvf sc (<[C := body]> callables) contract
                  fuel)).
    + reflexivity.
    + apply visitCallable_extends.
    + exact IH.
    + exact HC.
Qed.

(** ** The claims *)

(** C1, evaluated on [contract A { constructor() { f(); } function f()
    internal {} }]: the constructor body is walked before the current node
    advances to the constructor, so the call to [f] found in it is an edge
    of [EntryCreation], the node that was current before; there is no edge
    from the constructor to [f], and [f], which has no outgoing edge, is not
    a key of the edge map. *)
Lemma C1_constructor_call_is_edge_of_previous_node :
  ∃ g, createGraph DirectCall.callables DirectCall.contract 3 = Done g
     ∧ hasEdge g (Special EntryCreation) (ASTNodeRef 10)
     ∧ hasEdge g (Special EntryCreation) (ASTNodeRef 20)
     ∧ (¬ hasEdge g (ASTNodeRef 10) (ASTNodeRef 20))
     ∧ (ASTNodeRef 20 ∉ dom (edges g))
     ∧ (ASTNodeRef 10 ∉ dom (edges g)).
Proof.
  eexists. split; [vm_compute; reflexivity|].
  repeat split; by_computation.
Qed.

Lemma processFunction_key_no_descent V V' d direct b :
  isKey (ASTNodeRef (declId d)) b = true →
  processFunction V d direct b = processFunction V' d direct b.
Proof.
  intros Hk. apply isKey_true in Hk. unfold processFunction.
  match goal with
  | |- (if isKey ?c ?b2 then _ else _) = _ =>
      assert (H2 : isKey c b2 = true); [|rewrite H2; reflexivity]
  end.
  apply isKey_true.
  destruct direct, (m_currentNode b); rewrite ?dom_add; set_solver.
Qed.

(** C2: the keys of the edge map are pairwise distinct; [visitCallable]
    refuses a callable that is a key, and [processFunction] does not descend
    into one; from a state in which [C] is a key on, the run does not depend
    on the children of [C], so they are not walked again; and the
    construction ends for every contract, whatever calls whatever, with a
    recursion budget larger than the number of callables. *)
Theorem C2_single_visit_and_termination
    (rv : Declaration → Contract → Declaration)
    (rvf : Declaration → Contract → option Z → Declaration)
    (sc : Z → Contract → option Z)
    (callables : gmap Z (list ASTNode)) (contract : Contract) :
  (∀ fuel g, create rv rvf sc callables contract fuel = Done g →
     NoDup (fst <$> map_to_list (edges g)))
  ∧ (∀ fuel C b, isKey (ASTNodeRef C) b = true →
       visitCallable rv rvf sc callables contract (S fuel) C b
       = AssertionFailure)
  ∧ (∀ V V' d direct b, isKey (ASTNodeRef (declId d)) b = true →
       processFunction V d direct b = processFunction V' d direct b)
  ∧ (∀ fuel C body c b, isKey (ASTNodeRef C) b = true →
       visitCallable rv rvf sc callables contract fuel c b =
       visitCallable rv rvf sc (<[C := body]> callables) contract fuel c b)
  ∧ (∀ fuel c b b',
       visitCallable rv rvf sc callables contract fuel c b = Done b' →
       dom (edges (m_graph b)) ⊆ dom (edges (m_graph b')))
  ∧ (∀ fuel, (size callables < fuel)%nat →
       create rv rvf sc callables contract fuel ≠ OutOfFuel).
Proof.
  split; [|split; [|split; [|split; [|split]]]].
  - intros fuel g _. apply NoDup_fst_map_to_list.
  - intros fuel C b Hk. simpl. rewrite Hk. reflexivity.
  - intros V V' d direct b. apply processFunction_key_no_descent.
  - intros fuel C body c b Hk. apply visitCallable_agree, isKey_true, Hk.
  - intros fuel c b b' H. apply visitCallable_extends in H.
    apply (ext_keys _ _ H).
  - intros fuel. apply create_terminates.
Qed.

Lemma C2_recursion_witness :
  createGraph Recursion.callables Recursion.contract 4 ≠ OutOfFuel
  ∧ visitCallable resolveVirtual resolveVirtualFrom superContract
      Recursion.callables Recursion.contract 1 20
      (add (ASTNodeRef 20) (ASTNodeRef 20) initialBuilder)
    = AssertionFailure.
Proof.
  destruct (C2_single_visit_and_termination resolveVirtual resolveVirtualFrom
              superContract Recursion.callables Recursion.contract)
    as (_ & Hguard & _ & _ & _ & Hterm).
  split.
  - apply Hterm. vm_compute. lia.
  - apply Hguard. reflexivity.
Defined.

(** The graph of a contract with a self-recursive function and two mutually
    recursive ones. *)
Lemma Recursion_graph :
  ∃ g, createGraph Recursion.callables Recursion.contract 2 = Done g
     ∧ hasEdge g (ASTNodeRef 20) (ASTNodeRef 20)
     ∧ hasEdge g (ASTNodeRef 30) (ASTNodeRef 40)
     ∧ hasEdge g (ASTNodeRef 40) (ASTNodeRef 30)
     ∧ hasEdge g (Special Entry) (ASTNodeRef 20)
     ∧ hasEdge g (Special Entry) (ASTNodeRef 30).
Proof.
  eexists. split; [vm_compute; reflexivity|].
  repeat split; by_computation.
Qed.

(** A reference that is called directly becomes an edge of the current
    node, and stays one through the descent into the callee. *)
Lemma processFunction_direct_edge V d b b' current :
  (∀ c b b', V c b = Done b' → extends b b') →
  m_currentNode b = Some current →
  processFunction V d true b = Done b' →
  hasEdge (m_graph b') current (ASTNodeRef (declId d)).
Proof.
  intros HV Hcur. unfold processFunction. rewrite Hcur.
  set (b1 := add current (ASTNodeRef (declId d)) b).
  assert (H1 : hasEdge (m_graph b1) current (ASTNodeRef (declId d))).
  { unfold hasEdge. subst b1. rewrite successors_add, decide_True by done.
    set_solver. }
  destruct (isKey _ b1).
  - intros [= <-]. exact H1.
  - intros H. apply HV in H. apply (ext_edges _ _ H), H1.
Qed.

Lemma overrideIn_same_name d d' c :
  declName d = declName d' → overrideIn d c = overrideIn d' c.
Proof. unfold overrideIn. intros ->. reflexivity. Qed.

(** C3: with the linearization [B; A], [B]'s [f] overriding [A]'s, a plain
    identifier reference to [f] resolves to [B]'s [f] and a reference
    through [super] in [B] resolves to [A]'s [f]; visiting either does not
    exhaust the recursion budget, and when the visit returns, the current
    node has an edge to [B]'s [f], respectively to [A]'s [f]; the two
    targets are different nodes. *)
Theorem C3_virtual_and_super_resolution
    (A B : ContractDefinition) (fA fB d : Declaration) (contract : Contract)
    (callables : gmap Z (list ASTNode)) (fuel : nat)
    (b : Builder) (current : Node) :
  let V := visitCallable resolveVirtual resolveVirtualFrom superContract
             callables contract fuel in
  let plain := Identifier (Some d) Virtual (FunctionType Internal) true in
  let super := MemberAccess (FunctionType Internal) (Some d) Super
                 (TypeType (ContractType (contractId B) true)) true in
  linearizedBaseContracts contract = [B; A] →
  contractId A ≠ contractId B →
  overrideIn fB B = Some fB →
  overrideIn fA A = Some fA →
  declName fA = declName fB →
  declId fA ≠ declId fB →
  declName d = declName fB →
  declKind d = FunctionDefinition →
  m_currentNode b = Some current →
  (size callables < fuel)%nat →
  resolveVirtual d contract = fB
  ∧ resolveVirtualFrom d contract (superContract (contractId B) contract) = fA
  ∧ visit resolveVirtual contract V plain b ≠ OutOfFuel
  ∧ (∀ b', visit resolveVirtual contract V plain b = Done b' →
           hasEdge (m_graph b') current (ASTNodeRef (declId fB)))
  ∧ endVisit resolveVirtual resolveVirtualFrom superContract contract V
      super b ≠ OutOfFuel
  ∧ (∀ b',
       endVisit resolveVirtual resolveVirtualFrom superContract contract V
         super b = Done b' →
       hasEdge (m_graph b') current (ASTNodeRef (declId fA)))
  ∧ ASTNodeRef (declId fB) ≠ ASTNodeRef (declId fA).
Proof.
  intros V plain super Hlin Hids HB HA Hname Hdecl Hd Hkind Hcur Hfuel.
  assert (HV : ∀ c b b', V c b = Done b' → extends b b')
    by apply visitCallable_extends.
  assert (R1 : resolveVirtual d contract = fB).
  { unfold resolveVirtual. rewrite Hlin. simpl.
    rewrite (overrideIn_same_name d fB B Hd), HB. reflexivity. }
  assert (R2 : resolveVirtualFrom d contract
                 (superContract (contractId B) contract) = fA).
  { unfold resolveVirtualFrom, superContract. rewrite Hlin. simpl.
    rewrite bool_decide_eq_true_2 by reflexivity. simpl.
    rewrite bool_decide_eq_false_2 by (intros e; apply Hids; congruence).
    rewrite bool_decide_eq_true_2 by reflexivity.
    rewrite (overrideIn_same_name d fA A) by congruence.
    rewrite HA. reflexivity. }
  split; [exact R1|]. split; [exact R2|].
  split; [apply visit_visitCallable_terminates, Hfuel|]. split.
  { intros b'. simpl. unfold visit_Identifier.
    unfold isCallableDeclaration. rewrite Hkind, R1. simpl.
    intros H. apply bind_Done in H as (b1 & H1 & H2).
    apply bind_Done in H2 as (_ & _ & [= <-]).
    eapply processFunction_direct_edge; eauto. }
  split; [apply endVisit_visitCallable_terminates, Hfuel|]. split.
  { intros b'. simpl. unfold endVisit_MemberAccess.
    rewrite bool_decide_eq_true_2 by exact Hkind. simpl. rewrite R2.
    intros H. eapply processFunction_direct_edge; eauto. }
  congruence.
Qed.

Lemma C3_override_witness :
  resolveVirtual Override.fA Override.contract = Override.fB
  ∧ resolveVirtualFrom Override.fA Override.contract
      (superContract 2 Override.contract) = Override.fA
  ∧ (∃ b',
       visit resolveVirtual Override.contract
         (visitCallable resolveVirtual resolveVirtualFrom superContract
            Override.callables Override.contract 4)
         (Identifier (Some Override.fA) Virtual (FunctionType Internal) true)
         (setCurrentNode (Some (ASTNodeRef 23)) initialBuilder)
       = Done b'
       ∧ hasEdge (m_graph b') (ASTNodeRef 23) (ASTNodeRef 22))
  ∧ (∃ b',
       endVisit resolveVirtual resolveVirtualFrom superContract
         Override.contract
         (visitCallable resolveVirtual resolveVirtualFrom superContract
            Override.callables Override.contract 4)
         (MemberAccess (FunctionType Internal) (Some Override.fA) Super
            (TypeType (ContractType 2 true)) true)
         (setCurrentNode (Some (ASTNodeRef 23)) initialBuilder)
       = Done b'
       ∧ hasEdge (m_graph b') (ASTNodeRef 23) (ASTNodeRef 21)).
Proof.
  pose proof
    (C3_virtual_and_super_resolution Override.A Override.B Override.fA
       Override.fB Override.fA Override.contract Override.callables 4
       (setCurrentNode (Some (ASTNodeRef 23)) initialBuilder)
       (ASTNodeRef 23) eq_refl ltac:(discriminate) eq_refl eq_refl
       eq_refl ltac:(discriminate) eq_refl eq_refl eq_refl
       ltac:(vm_compute; lia)) as H.
  destruct H as (H1 & H2 & _ & H3 & _ & H4 & _).
  split; [exact H1|]. split; [exact H2|]. split.
  - eexists. split; [vm_compute; reflexivity|].
    apply H3. vm_compute. reflexivity.
  - eexists. split; [vm_compute; reflexivity|].
    apply H4. vm_compute. reflexivity.
Defined.

(** The graph of [B] in the example: [g] calls [f] and [super.f]. *)
Lemma Override_graph :
  ∃ g, createGraph Override.callables Override.contract 3 = Done g
     ∧ hasEdge g (ASTNodeRef 23) (ASTNodeRef 22)
     ∧ hasEdge g (ASTNodeRef 23) (ASTNodeRef 21)
     ∧ hasEdge g (Special Entry) (ASTNodeRef 23).
Proof.
  eexists. split; [vm_compute; reflexivity|].
  repeat split; by_computation.
Qed.

Lemma hasEdge_add x y b u v :
  hasEdge (m_graph (add x y b)) u v ↔
  hasEdge (m_graph b) u v ∨ (u = x ∧ v = y).
Proof.
  unfold hasEdge. rewrite successors_add.
  destruct (decide (x = u)) as [->|Hne].
  - rewrite elem_of_union, elem_of_singleton. naive_solver.
  - naive_solver.
Qed.

(** C4: a reference to [g] that is not called directly adds the edges
    [dispatch → g] and [g → dispatch], with [dispatch] the current dispatch
    node, and nothing else: no other edge appears, in particular none from
    the current node to [g], and, [g] being a key now, there is no
    descent.  The creation phase starts with [InternalCreationDispatch] as
    the dispatch node and a walk leaves the dispatch node as it is; the
    runtime phase runs with [InternalDispatch]. *)
Theorem C4_indirect_reference_adds_two_dispatch_edges
    (V : Z → Builder → Result Builder) (g : Declaration) (b : Builder) :
  let dispatch := Special (m_currentDispatch b) in
  let target := ASTNodeRef (declId g) in
  ∃ b', processFunction V g false b = Done b'
      ∧ b' = add target dispatch (add dispatch target b)
      ∧ (∀ x y, hasEdge (m_graph b') x y ↔
           hasEdge (m_graph b) x y
           ∨ (x = dispatch ∧ y = target) ∨ (x = target ∧ y = dispatch))
      ∧ (∀ current, m_currentNode b = Some current → current ≠ dispatch →
           (hasEdge (m_graph b') current target ↔
            hasEdge (m_graph b) current target))
      ∧ m_currentDispatch initialBuilder = InternalCreationDispatch
      ∧ (∀ b0, m_currentDispatch (setCurrentDispatch InternalDispatch b0)
               = InternalDispatch)
      ∧ ((∀ c b1 b2, V c b1 = Done b2 → extends b1 b2) →
         ∀ rv rvf sc contract l b1 b2,
           listAccept rv rvf sc contract V l b1 = Done b2 →
           m_currentDispatch b2 = m_currentDispatch b1).
Proof.
  intros dispatch target.
  assert (E : processFunction V g false b =
              Done (add target dispatch (add dispatch target b))).
  { unfold processFunction.
    assert (Hb : match m_currentNode b with
                 | Some _ | _ => b
                 end = b) by (destruct (m_currentNode b); reflexivity).
    rewrite Hb. fold target dispatch.
    assert (Hk : isKey target (add target dispatch (add dispatch target b))
                 = true).
    { apply isKey_true. rewrite dom_add. set_solver. }
    rewrite Hk. reflexivity. }
  assert (HE : ∀ x y,
             hasEdge (m_graph (add target dispatch (add dispatch target b)))
               x y ↔
             hasEdge (m_graph b) x y
             ∨ (x = dispatch ∧ y = target) ∨ (x = target ∧ y = dispatch)).
  { intros x y. rewrite !hasEdge_add. tauto. }
  eexists. split; [exact E|]. split; [reflexivity|]. split; [exact HE|].
  split; [|split; [reflexivity|split; [reflexivity|]]].
  - intros current Hcur Hne. rewrite HE. split; [|tauto].
    intros [H|[[H _]|[_ H]]]; [exact H | contradiction | discriminate].
  - intros HV rv rvf sc contract l b1 b2 H.
    apply (listAccept_extends _ _ _ _ _ HV) in H.
    apply (ext_dispatch _ _ H).
Qed.

Lemma C4_indirect_witness :
  hasEdge
    (m_graph (add (ASTNodeRef 40) (Special InternalDispatch)
                (add (Special InternalDispatch) (ASTNodeRef 40)
                   (setCurrentDispatch InternalDispatch
                      (setCurrentNode (Some (ASTNodeRef 30))
                         initialBuilder)))))
    (ASTNodeRef 30) (ASTNodeRef 40)
  ↔ hasEdge (m_graph initialBuilder) (ASTNodeRef 30) (ASTNodeRef 40).
Proof.
  destruct (C4_indirect_reference_adds_two_dispatch_edges
              (λ _ _, AssertionFailure) Indirect.g
              (setCurrentDispatch InternalDispatch
                 (setCurrentNode (Some (ASTNodeRef 30)) initialBuilder)))
    as (b' & _ & -> & _ & Hcur & _).
  apply (Hcur (ASTNodeRef 30)); [reflexivity | discriminate].
Defined.

(** The graph of the example: [k] is referenced in the constructor, [g] in
    the public function [h], neither is called directly. *)
Lemma Indirect_graph :
  ∃ g, createGraph Indirect.callables Indirect.contract 5 = Done g
     ∧ hasEdge g (Special InternalCreationDispatch) (ASTNodeRef 50)
     ∧ hasEdge g (ASTNodeRef 50) (Special InternalCreationDispatch)
     ∧ hasEdge g (Special InternalDispatch) (ASTNodeRef 40)
     ∧ hasEdge g (ASTNodeRef 40) (Special InternalDispatch)
     ∧ (¬ hasEdge g (ASTNodeRef 30) (ASTNodeRef 40))
     ∧ (¬ hasEdge g (Special EntryCreation) (ASTNodeRef 50))
     ∧ (¬ hasEdge g (ASTNodeRef 10) (ASTNodeRef 50)).
Proof.
  eexists. split; [vm_compute; reflexivity|].
  repeat split; by_computation.
Qed.

Lemma hasEdge_addEntry f b u v :
  hasEdge (m_graph b) u v → hasEdge (m_graph (addEntry f b)) u v.
Proof.
  destruct f as [f|]; unfold addEntry; [|tauto]. rewrite hasEdge_add. tauto.
Qed.

(** C5: the construction ends, and every graph the builder returns has
    the edge [InternalDispatch → InternalCreationDispatch]; the graph of
    the empty contract has this edge and no other, so no other edge is added
    unconditionally. *)
Theorem C5_bridging_edge :
  (∀ rv rvf sc callables contract fuel,
     (size callables < fuel)%nat →
     create rv rvf sc callables contract fuel ≠ OutOfFuel)
  ∧ (∀ rv rvf sc callables contract fuel g,
       create rv rvf sc callables contract fuel = Done g →
       hasEdge g (Special InternalDispatch)
         (Special InternalCreationDispatch))
  ∧ (∀ rv rvf sc fuel,
       create rv rvf sc ∅ Empty.contract fuel =
       Done (mkGraph
               {[Special InternalDispatch :=
                   {[Special InternalCreationDispatch]}]} ∅)).
Proof.
  split; [|split].
  - intros rv rvf sc callables contract fuel. apply create_terminates.
  - intros rv rvf sc callables contract fuel g H.
    unfold create in H. apply bind_Done in H as (b & H & [= <-]).
    unfold FunctionCallGraphBuilder in H.
    apply bind_Done in H as (b1 & _ & H).
    apply bind_Done in H as (b3 & _ & [= <-]).
    unfold setCurrentNode at 1. cbn [m_graph].
    apply hasEdge_addEntry, hasEdge_addEntry, hasEdge_add. tauto.
  - intros rv rvf sc fuel. vm_compute. reflexivity.
Qed.

Lemma C5_bridging_edge_witness :
  hasEdge
    (mkGraph {[Special InternalDispatch :=
                 {[Special InternalCreationDispatch]}]} ∅)
    (Special InternalDispatch) (Special InternalCreationDispatch).
Proof.
  apply (proj1 (proj2 C5_bridging_edge) resolveVirtual resolveVirtualFrom
           superContract ∅ Empty.contract 0%nat).
  vm_compute. reflexivity.
Defined.

Lemma successors_addEntry f b :
  successors (edges (m_graph (addEntry f b))) (Special Entry) =
  optionalTarget f ∪ successors (edges (m_graph b)) (Special Entry).
Proof.
  destruct f as [f|]; unfold addEntry, optionalTarget.
  - rewrite successors_add, decide_True by reflexivity. reflexivity.
  - symmetry. apply (left_id_L ∅ (∪)).
Qed.

Lemma elem_of_interfaceTargets d l :
  d ∈ l → declKind d = FunctionDefinition →
  ASTNodeRef (declId d) ∈ interfaceTargets l.
Proof.
  intros Hin Hk. unfold interfaceTargets.
  apply elem_of_list_to_set, list_elem_of_fmap. exists d. split; [done|].
  apply list_elem_of_filter. split; assumption.
Qed.

(** C6: the construction ends, and in every graph the builder returns the
    successors of [Entry] are the function definitions of the interface
    list, the fallback function and the receive function, and nothing else;
    each function definition of the interface list gets its edge whether it
    was visited before or not, and an entry that is a variable declaration
    is passed over without a change. *)
Theorem C6_entry_edges
    (rv : Declaration → Contract → Declaration)
    (rvf : Declaration → Contract → option Z → Declaration)
    (sc : Z → Contract → option Z)
    (callables : gmap Z (list ASTNode)) (contract : Contract) :
  (∀ fuel, (size callables < fuel)%nat →
     create rv rvf sc callables contract fuel ≠ OutOfFuel)
  ∧ (∀ fuel g,
       create rv rvf sc callables contract fuel = Done g →
       successors (edges g) (Special Entry) =
         optionalTarget (receiveFunction (definition contract))
         ∪ (optionalTarget (fallbackFunction (definition contract))
            ∪ interfaceTargets (interfaceFunctionList (definition contract)))
       ∧ (∀ d, d ∈ interfaceFunctionList (definition contract) →
               declKind d = FunctionDefinition →
               hasEdge g (Special Entry) (ASTNodeRef (declId d)))
       ∧ (∀ f, fallbackFunction (definition contract) = Some f →
               hasEdge g (Special Entry) (ASTNodeRef f))
       ∧ (∀ f, receiveFunction (definition contract) = Some f →
               hasEdge g (Special Entry) (ASTNodeRef f)))
  ∧ (∀ fuel d b, declKind d = VariableDeclaration →
       interfaceStep rv rvf sc callables contract fuel d b = Done b)
  ∧ (∀ fuel d b b', declKind d = FunctionDefinition →
       interfaceStep rv rvf sc callables contract fuel d b = Done b' →
       hasEdge (m_graph b') (Special Entry) (ASTNodeRef (declId d))).
Proof.
  split; [intros fuel; apply create_terminates|].
  split; [|split].
  - intros fuel g H.
    assert (HS : successors (edges g) (Special Entry) =
      optionalTarget (receiveFunction (definition contract))
      ∪ (optionalTarget (fallbackFunction (definition contract))
         ∪ interfaceTargets (interfaceFunctionList (definition contract)))).
    { unfold create in H. apply bind_Done in H as (b & H & [= <-]).
      unfold FunctionCallGraphBuilder in H.
      apply bind_Done in H as (b1 & H1 & H).
      apply bind_Done in H as (b3 & H3 & [= <-]).
      apply creationLoop_entry in H1; [|discriminate..].
      apply interfaceLoop_entry in H3; [|reflexivity|discriminate].
      unfold setCurrentNode at 1. cbn [m_graph].
      rewrite !successors_addEntry, successors_add.
      rewrite decide_False by discriminate. rewrite H3.
      unfold setCurrentDispatch, setCurrentNode. cbn [m_graph]. rewrite H1.
      unfold initialBuilder, successors. simpl. rewrite lookup_empty. simpl.
      rewrite (right_id_L ∅ (∪)). reflexivity. }
    split; [exact HS|]. unfold hasEdge. rewrite HS.
    split; [|split].
    + intros d Hin Hk.
      apply elem_of_union_r, elem_of_union_r, elem_of_interfaceTargets; done.
    + intros f ->. apply elem_of_union_r, elem_of_union_l. simpl.
      apply elem_of_singleton. reflexivity.
    + intros f ->. apply elem_of_union_l. simpl.
      apply elem_of_singleton. reflexivity.
  - intros fuel d b Hk. unfold interfaceStep. rewrite Hk. reflexivity.
  - intros fuel d b b' Hk. unfold interfaceStep.
    rewrite bool_decide_eq_true_2 by exact Hk.
    intros Hb. apply bind_Done in Hb as (b1 & _ & [= <-]).
    unfold hasEdge. rewrite successors_add, decide_True by reflexivity.
    apply elem_of_union_l, elem_of_singleton. reflexivity.
Qed.

Lemma C6_entry_edges_witness :
  createGraph Interface.callables Interface.contract 4 ≠ OutOfFuel
  ∧ successors
      (edges
         (mkGraph
            {[Special InternalDispatch :=
                {[Special InternalCreationDispatch]};
              Special Entry :=
                {[ASTNodeRef 80; ASTNodeRef 70; ASTNodeRef 20]}]}
            ∅))
      (Special Entry)
    = optionalTarget (Some 80)
      ∪ (optionalTarget (Some 70) ∪ interfaceTargets [Interface.f; Interface.x]).
Proof.
  destruct (C6_entry_edges resolveVirtual resolveVirtualFrom superContract
              Interface.callables Interface.contract)
    as (Hterm & Hedges & _).
  split.
  - apply Hterm. vm_compute. lia.
  - apply (Hedges 4%nat). vm_compute. reflexivity.
Defined.

(** The graph of the example: the getter of [x] has no edge. *)
Lemma Interface_graph :
  ∃ g, createGraph Interface.callables Interface.contract 4 = Done g
     ∧ successors (edges g) (Special Entry)
       = {[ASTNodeRef 20; ASTNodeRef 70; ASTNodeRef 80]}
     ∧ (¬ hasEdge g (Special Entry) (ASTNodeRef 60)).
Proof.
  eexists. split; [vm_compute; reflexivity|].
  split; [vm_compute; reflexivity | by_computation].
Qed.

(** C7: visiting [new C(...)], the type name being a contract type, puts
    [C] into [createdContracts] and leaves the edge map and the traversal
    context as they are; there is no [endVisit] for the node; [C] stays in
    the set through the rest of a walk.  A type name of another type changes
    nothing. *)
Theorem C7_new_expression_records_contract
    (rv : Declaration → Contract → Declaration)
    (rvf : Declaration → Contract → option Z → Declaration)
    (sc : Z → Contract → option Z) (contract : Contract)
    (V : Z → Builder → Result Builder) (C : Z) (isSuper : bool)
    (b : Builder) :
  ∃ b', visit rv contract V (NewExpression (ContractType C isSuper)) b
        = Done b'
      ∧ C ∈ createdContracts (m_graph b')
      ∧ createdContracts (m_graph b') = {[C]} ∪ createdContracts (m_graph b)
      ∧ edges (m_graph b') = edges (m_graph b)
      ∧ m_currentNode b' = m_currentNode b
      ∧ m_currentDispatch b' = m_currentDispatch b
      ∧ endVisit rv rvf sc contract V (NewExpression (ContractType C isSuper))
          b' = Done b'
      ∧ ((∀ c b1 b2, V c b1 = Done b2 → extends b1 b2) →
         ∀ l b'', listAccept rv rvf sc contract V l b' = Done b'' →
                  C ∈ createdContracts (m_graph b''))
      ∧ (∀ t, (∀ c s, t ≠ ContractType c s) →
              visit rv contract V (NewExpression t) b = Done b).
Proof.
  eexists. split; [reflexivity|]. simpl.
  split; [apply elem_of_union_l, elem_of_singleton; reflexivity|].
  do 5 (split; [reflexivity|]). split.
  - intros HV l b'' H. apply (listAccept_extends _ _ _ _ _ HV) in H.
    apply (ext_created _ _ H). simpl.
    apply elem_of_union_l, elem_of_singleton. reflexivity.
  - intros t Ht. destruct t as [k|c s|t|]; try reflexivity.
    destruct (Ht c s). reflexivity.
Qed.

Lemma C7_new_expression_witness :
  ∃ b',
    visit resolveVirtual Instantiation.contract (λ _ _, AssertionFailure)
      (NewExpression (ContractType 5 false)) initialBuilder = Done b'
    ∧ 5 ∈ createdContracts (m_graph b')
    ∧ edges (m_graph b') = edges (m_graph initialBuilder)
    ∧ (∃ b'',
         listAccept resolveVirtual resolveVirtualFrom superContract
           Instantiation.contract (λ _ _, AssertionFailure) [block []] b'
         = Done b''
         ∧ 5 ∈ createdContracts (m_graph b'')).
Proof.
  destruct (C7_new_expression_records_contract resolveVirtual
              resolveVirtualFrom superContract Instantiation.contract
              (λ _ _, AssertionFailure) 5 false initialBuilder)
    as (b' & Hb' & Hin & _ & Hedges & _ & _ & _ & Hwalk & _).
  exists b'. split; [exact Hb'|]. split; [exact Hin|].
  split; [exact Hedges|].
  exists b'. split.
  - injection Hb' as <-. reflexivity.
  - apply (Hwalk ltac:(discriminate) [block []]).
    injection Hb' as <-. reflexivity.
Defined.

(** The graph of the example: [C] is a created contract, and the
    constructor has no edge for the expression. *)
Lemma Instantiation_graph :
  createGraph Instantiation.callables Instantiation.contract 2 =
  Done (mkGraph
          {[Special InternalDispatch := {[Special InternalCreationDispatch]};
            Special EntryCreation := {[ASTNodeRef 10]}]}
          {[5]}).
Proof. vm_compute. reflexivity. Qed.

(** C8 as stated fails on a modifier invocation tagged [Super]: it is not
    resolved statically and gets no edge, the builder stops on its
    assertion. *)
Lemma C8_super_tagged_modifier_counterexample :
  endVisit resolveVirtual resolveVirtualFrom superContract Modifier.contract
    (visitCallable resolveVirtual resolveVirtualFrom superContract
       (Modifier.callables Super) Modifier.contract 2)
    (ModifierInvocation (Some Modifier.m) Super)
    (setCurrentNode (Some (ASTNodeRef 20)) initialBuilder)
  = AssertionFailure
  ∧ createGraph (Modifier.callables Super) Modifier.contract 3
    = AssertionFailure.
Proof. split; vm_compute; reflexivity. Qed.

(** C8, amended: a modifier invocation whose name refers to a modifier
    definition is resolved virtually when its tag is [Virtual] and is taken
    as named when its tag is [Static]; it is then a direct call: the one
    edge the invocation adds goes from the current node to the resolved
    modifier, no edge of a dispatch node is added, and the modifier is
    visited unless it is a key.  A [Super] tag fails the assertion. *)
Theorem C8_modifier_invocation
    (rv : Declaration → Contract → Declaration)
    (rvf : Declaration → Contract → option Z → Declaration)
    (sc : Z → Contract → option Z) (contract : Contract)
    (V : Z → Builder → Result Builder) (m : Declaration)
    (lookup : VirtualLookup) (b : Builder) (current : Node) :
  declKind m = ModifierDefinition →
  m_currentNode b = Some current →
  let resolved :=
    match lookup with
    | Virtual => rv m contract
    | _ => m
    end in
  let b1 := add current (ASTNodeRef (declId resolved)) b in
  endVisit rv rvf sc contract V (ModifierInvocation (Some m) lookup) b =
    match lookup with
    | Super => AssertionFailure
    | _ =>
        if isKey (ASTNodeRef (declId resolved)) b1 then Done b1
        else V (declId resolved) b1
    end
  ∧ hasEdge (m_graph b1) current (ASTNodeRef (declId resolved))
  ∧ (∀ x y, hasEdge (m_graph b1) x y ↔
            hasEdge (m_graph b) x y
            ∨ (x = current ∧ y = ASTNodeRef (declId resolved)))
  ∧ processFunction_calledDirectly_default = true.
Proof.
  intros Hk Hcur resolved b1. split; [|split; [|split]].
  - simpl. unfold endVisit_ModifierInvocation.
    rewrite bool_decide_eq_true_2 by exact Hk.
    destruct lookup; simpl; try reflexivity;
      unfold processFunction, processFunction_calledDirectly_default;
      rewrite Hcur; reflexivity.
  - subst b1. apply hasEdge_add. tauto.
  - intros x y. subst b1. apply hasEdge_add.
  - reflexivity.
Qed.

Lemma C8_modifier_invocation_witness :
  hasEdge
    (m_graph (add (ASTNodeRef 20) (ASTNodeRef 25)
                (setCurrentNode (Some (ASTNodeRef 20)) initialBuilder)))
    (ASTNodeRef 20) (ASTNodeRef 25).
Proof.
  refine (proj1 (proj2
    (C8_modifier_invocation resolveVirtual resolveVirtualFrom superContract
       Modifier.contract (λ _ _, AssertionFailure) Modifier.m Virtual
       (setCurrentNode (Some (ASTNodeRef 20)) initialBuilder)
       (ASTNodeRef 20) _ _)));
    reflexivity.
Defined.

(** The graph of the example with the tag [Virtual] and with the tag
    [Static]. *)
Lemma Modifier_graph (lookup : VirtualLookup) :
  lookup ≠ Super →
  createGraph (Modifier.callables lookup) Modifier.contract 3 =
  Done (mkGraph
          {[Special InternalDispatch := {[Special InternalCreationDispatch]};
            Special Entry := {[ASTNodeRef 20]};
            ASTNodeRef 20 := {[ASTNodeRef 25]}]}
          ∅).
Proof. destruct lookup; intros H; try (vm_compute; reflexivity). done. Qed.

(** C9 as stated fails on a member access tagged [Super] whose expression
    is not the type of a contract: no assertion fails, the access is taken
    as a reference to the function named and the graph is built. *)
Lemma C9_super_tag_without_contract_type_counterexample :
  createGraph (TaggedAccess.callables Super OtherType) TaggedAccess.contract 3
  = Done (mkGraph
            {[Special InternalDispatch :=
                {[Special InternalCreationDispatch]};
              Special Entry := {[ASTNodeRef 23]};
              ASTNodeRef 23 := {[ASTNodeRef 21]}]}
            ∅)
  ∧ createGraph (TaggedAccess.callables Super (TypeType OtherType))
      TaggedAccess.contract 3
    ≠ AssertionFailure.
Proof. split; [vm_compute; reflexivity | vm_compute; discriminate]. Qed.

(** C9, amended: an identifier that refers to a callable and is not tagged
    [Virtual] fails the assertion; a member access naming an internal
    function fails it when it is tagged [Virtual], and when it is tagged
    [Super] and its expression is the type of a contract that is not the
    super type.  A member access tagged [Super] whose expression is not the
    type of a contract fails no assertion: it is processed as a reference
    to the function it names. *)
Theorem C9_lookup_tag_assertions
    (rv : Declaration → Contract → Declaration)
    (rvf : Declaration → Contract → option Z → Declaration)
    (sc : Z → Contract → option Z) (contract : Contract)
    (V : Z → Builder → Result Builder) (b : Builder) :
  (∀ d lookup t direct,
     isCallableDeclaration d = true → lookup ≠ Virtual →
     visit rv contract V (Identifier (Some d) lookup t direct) b
     = AssertionFailure)
  ∧ (∀ d e direct,
       declKind d = FunctionDefinition →
       endVisit rv rvf sc contract V
         (MemberAccess (FunctionType Internal) (Some d) Virtual e direct) b
       = AssertionFailure)
  ∧ (∀ d C direct,
       declKind d = FunctionDefinition →
       endVisit rv rvf sc contract V
         (MemberAccess (FunctionType Internal) (Some d) Super
            (TypeType (ContractType C false)) direct) b
       = AssertionFailure)
  ∧ (∀ d e direct,
       declKind d = FunctionDefinition →
       (∀ C isSuper, e ≠ TypeType (ContractType C isSuper)) →
       endVisit rv rvf sc contract V
         (MemberAccess (FunctionType Internal) (Some d) Super e direct) b
       = processFunction V d direct b).
Proof.
  split; [|split; [|split]].
  - intros d lookup t direct Hd Hl. simpl. unfold visit_Identifier.
    rewrite Hd. rewrite bool_decide_eq_false_2 by exact Hl. reflexivity.
  - intros d e direct Hd. simpl. unfold endVisit_MemberAccess.
    rewrite bool_decide_eq_true_2 by exact Hd. reflexivity.
  - intros d C direct Hd. simpl. unfold endVisit_MemberAccess.
    rewrite bool_decide_eq_true_2 by exact Hd. reflexivity.
  - intros d e direct Hd He. simpl. unfold endVisit_MemberAccess.
    rewrite bool_decide_eq_true_2 by exact Hd. simpl.
    destruct e as [k|c s|[k|c s|t|]|]; try reflexivity.
    destruct (He c s). reflexivity.
Qed.

Lemma C9_lookup_tag_witness :
  visit resolveVirtual TaggedAccess.contract (λ _ _, AssertionFailure)
    (Identifier (Some TaggedAccess.f) Static (FunctionType Internal) true)
    initialBuilder
  = AssertionFailure
  ∧ endVisit resolveVirtual resolveVirtualFrom superContract
      TaggedAccess.contract (λ _ _, AssertionFailure)
      (MemberAccess (FunctionType Internal) (Some TaggedAccess.f) Super
         (TypeType (ContractType 1 false)) true)
      initialBuilder
    = AssertionFailure.
Proof.
  destruct (C9_lookup_tag_assertions resolveVirtual resolveVirtualFrom
              superContract TaggedAccess.contract (λ _ _, AssertionFailure)
              initialBuilder) as (Hid & _ & Hsuper & _).
  split.
  - apply Hid; [reflexivity | discriminate].
  - apply Hsuper. reflexivity.
Defined.

(** The assertions, on whole graphs of the example. *)
Lemma TaggedAccess_graphs :
  createGraph (TaggedAccess.callables Virtual OtherType)
    TaggedAccess.contract 3 = AssertionFailure
  ∧ createGraph (TaggedAccess.callables Super (TypeType (ContractType 1 false)))
      TaggedAccess.contract 3 = AssertionFailure
  ∧ createGraph (TaggedAccess.callables Super (TypeType (ContractType 1 true)))
      TaggedAccess.contract 3 ≠ AssertionFailure.
Proof.
  split; [|split]; vm_compute; (reflexivity || discriminate).
Qed.

(** C10: the comparators of a node with a raw id fail the assertion on a
    dispatch node, in either argument order; on the node of a declaration
    they return whether the id of the declaration is less than the raw id,
    and, with the raw id first, whether it is greater. *)
Theorem C10_compare_with_raw_id (n : Node) (raw : Z) :
  (holds_SpecialNode n = true →
   CompareByID_Node_id n raw = AssertionFailure
   ∧ CompareByID_id_Node raw n = AssertionFailure)
  ∧ (holds_SpecialNode n = false →
     ∃ id, n = ASTNodeRef id
         ∧ CompareByID_Node_id n raw = Done (bool_decide (id < raw))
         ∧ CompareByID_id_Node raw n = Done (bool_decide (id > raw))).
Proof.
  split.
  - destruct n as [id|s]; [discriminate|]. intros _. split; reflexivity.
  - destruct n as [id|s]; [|discriminate]. intros _. exists id.
    split; [reflexivity|]. split; [reflexivity|].
    unfold CompareByID_id_Node. simpl. f_equal.
    apply bool_decide_ext. lia.
Qed.

Lemma C10_compare_with_raw_id_witness :
  CompareByID_Node_id (Special Entry) 7 = AssertionFailure
  ∧ CompareByID_id_Node 7 (Special Entry) = AssertionFailure
  ∧ ∃ id, ASTNodeRef 5 = ASTNodeRef id
        ∧ CompareByID_Node_id (ASTNodeRef 5) 7 = Done (bool_decide (id < 7))
        ∧ CompareByID_id_Node 7 (ASTNodeRef 5) = Done (bool_decide (id > 7)).
Proof.
  split; [|split].
  - apply (proj1 (C10_compare_with_raw_id (Special Entry) 7)). reflexivity.
  - apply (proj1 (C10_compare_with_raw_id (Special Entry) 7)). reflexivity.
  - apply (proj2 (C10_compare_with_raw_id (ASTNodeRef 5) 7)). reflexivity.
Defined.

(** ** Further properties *)

(** X1: whatever the positions of the alternatives (two different ones) and
    the values of the enumerators (pairwise different), the comparator of
    two nodes always returns, and what it returns is a strict total order:
    no node is below itself, the order is transitive, and of two different
    nodes exactly one is below the other. *)
Theorem X1_CompareByID_strict_total_order
    (indexOfASTNode indexOfSpecialNode : nat) (valueOf : SpecialNode → Z) :
  indexOfASTNode ≠ indexOfSpecialNode →
  (∀ s t, valueOf s = valueOf t → s = t) →
  ∃ less : Node → Node → bool,
    (∀ a b, CompareByID_Node_Node indexOfASTNode indexOfSpecialNode valueOf
              a b = Done (less a b))
    ∧ (∀ a, less a a = false)
    ∧ (∀ a b c, less a b = true → less b c = true → less a c = true)
    ∧ (∀ a b, less a b = true → less b a = false)
    ∧ (∀ a b, less a b = false → less b a = false → a = b).
Proof.
  intros Hindex Hvalue.
  exists (λ a b,
    match a, b with
    | ASTNodeRef i, ASTNodeRef j => bool_decide (i < j)
    | Special s, Special t => bool_decide (valueOf s < valueOf t)
    | ASTNodeRef _, Special _ =>
        bool_decide (indexOfASTNode < indexOfSpecialNode)%nat
    | Special _, ASTNodeRef _ =>
        bool_decide (indexOfSpecialNode < indexOfASTNode)%nat
    end).
  split; [|split; [|split; [|split]]].
  - intros [i|s] [j|t]; unfold CompareByID_Node_Node; simpl.
    + rewrite bool_decide_eq_false_2 by (intros H; apply H; reflexivity).
      reflexivity.
    + rewrite bool_decide_eq_true_2 by exact Hindex. reflexivity.
    + rewrite bool_decide_eq_true_2 by (intros e; apply Hindex; congruence).
      reflexivity.
    + rewrite bool_decide_eq_false_2 by (intros H; apply H; reflexivity).
      reflexivity.
  - intros [i|s]; apply bool_decide_eq_false; lia.
  - intros [i|s] [j|t] [k|u]; rewrite ?bool_decide_eq_true; lia.
  - intros [i|s] [j|t]; rewrite ?bool_decide_eq_true, ?bool_decide_eq_false;
      lia.
  - intros [i|s] [j|t]; rewrite ?bool_decide_eq_false; intros H1 H2.
    + f_equal. lia.
    + lia.
    + lia.
    + f_equal. apply Hvalue. lia.
Qed.

Lemma X1_CompareByID_witness :
  ∃ less : Node → Node → bool,
    (∀ a b, CompareByID_Node_Node 0 1 (λ s, Z.of_nat (SpecialNode_to_nat s))
              a b = Done (less a b))
    ∧ (∀ a, less a a = false)
    ∧ (∀ a b c, less a b = true → less b c = true → less a c = true)
    ∧ (∀ a b, less a b = true → less b a = false)
    ∧ (∀ a b, less a b = false → less b a = false → a = b).
Proof.
  apply (X1_CompareByID_strict_total_order 0 1
           (λ s, Z.of_nat (SpecialNode_to_nat s))).
  - discriminate.
  - intros [] []; simpl; intros H; try reflexivity; discriminate.
Defined.

Lemma add_add_same x y b : add x y (add x y b) = add x y b.
Proof.
  unfold add. simpl. f_equal. f_equal.
  unfold successors. rewrite lookup_insert_eq. simpl.
  rewrite insert_insert_eq. f_equal.
  rewrite (assoc_L (∪)), (idemp_L (∪)). reflexivity.
Qed.

(** X2: [add] records the edge and makes the caller a key; it returns
    [true] exactly when the edge was not there; adding an edge a second
    time returns [false] and changes nothing; and the order of two [add]s
    does not matter. *)
Theorem X2_add_is_set_insertion (x y u v : Node) (b : Builder) :
  hasEdge (m_graph (add x y b)) x y
  ∧ x ∈ dom (edges (m_graph (add x y b)))
  ∧ (add_inserted x y b = true ↔ ¬ hasEdge (m_graph b) x y)
  ∧ add_inserted x y (add x y b) = false
  ∧ add x y (add x y b) = add x y b
  ∧ (hasEdge (m_graph b) x y → x ∈ dom (edges (m_graph b)) ∧
       edges (m_graph (add x y b)) = edges (m_graph b))
  ∧ add x y (add u v b) = add u v (add x y b).
Proof.
  split; [|split; [|split; [|split; [|split; [|split]]]]].
  - unfold hasEdge. rewrite successors_add, decide_True by reflexivity.
    apply elem_of_union_l, elem_of_singleton. reflexivity.
  - rewrite dom_add. apply elem_of_union_l, elem_of_singleton. reflexivity.
  - unfold add_inserted, hasEdge. apply bool_decide_eq_true.
  - unfold add_inserted. apply bool_decide_eq_false. intros H. apply H.
    rewrite successors_add, decide_True by reflexivity.
    apply elem_of_union_l, elem_of_singleton. reflexivity.
  - apply add_add_same.
  - unfold hasEdge, successors. intros H.
    destruct (edges (m_graph b) !! x) as [s|] eqn:Hx; simpl in H;
      [|apply not_elem_of_empty in H; destruct H].
    split; [apply elem_of_dom; eauto|].
    unfold add. simpl. unfold successors. rewrite Hx. simpl.
    apply insert_id. rewrite Hx. f_equal. set_solver.
  - unfold add. simpl. f_equal. f_equal. unfold successors.
    destruct (decide (x = u)) as [->|Hne].
    + rewrite !lookup_insert_eq. simpl. rewrite !insert_insert_eq. f_equal.
      rewrite !(assoc_L (∪)). f_equal. apply (comm_L (∪)).
    + rewrite lookup_insert_ne by congruence.
      rewrite lookup_insert_ne by congruence.
      apply insert_insert_ne. congruence.
Qed.

Lemma X2_add_witness :
  edges (m_graph (add (Special Entry) (ASTNodeRef 20)
                    (add (Special Entry) (ASTNodeRef 20) initialBuilder)))
  = edges (m_graph (add (Special Entry) (ASTNodeRef 20) initialBuilder)).
Proof.
  destruct (X2_add_is_set_insertion (Special Entry) (ASTNodeRef 20)
              (Special Entry) (ASTNodeRef 20)
              (add (Special Entry) (ASTNodeRef 20) initialBuilder))
    as (_ & _ & _ & _ & _ & Hsame & _).
  apply Hsame. by_computation.
Defined.

(** ** Invariants of the graph under construction

    A property [G] of graphs that every insertion the builder makes
    preserves holds of the graph through every walk. *)

Section GraphInvariant.

Variable rv : Declaration → Contract → Declaration.
Variable rvf : Declaration → Contract → option Z → Declaration.
Variable sc : Z → Contract → option Z.
Variable callables : gmap Z (list ASTNode).
Variable contract : Contract.

Variable G : ContractCallGraph → Prop.
Variable okNode : Node → Prop.
Variable okDispatch : SpecialNode → Prop.
Variable okKind : NodeKind → Prop.

Hypothesis okNode_callable : ∀ c, okNode (ASTNodeRef c).
Hypothesis G_direct :
  ∀ b current c, G (m_graph b) → okNode current →
    G (m_graph (add current (ASTNodeRef c) b)).
Hypothesis G_indirect :
  ∀ b d c, G (m_graph b) → okDispatch d →
    G (m_graph (add (ASTNodeRef c) (Special d)
                  (add (Special d) (ASTNodeRef c) b))).
Hypothesis G_created :
  ∀ g C isSuper, okKind (NewExpression (ContractType C isSuper)) → G g →
    G (mkGraph (edges g) ({[C]} ∪ createdContracts g)).
Hypothesis callables_ok :
  ∀ c l, callables !! c = Some l → Forall (allKinds okKind) l.

Section BodyWalk.

Variable V : Z → Builder → Result Builder.
Hypothesis V_keeps :
  ∀ c b b', keeps G okNode okDispatch b → V c b = Done b' →
            keeps G okNode okDispatch b'.

Lemma processFunction_keeps d direct b b' :
  keeps G okNode okDispatch b →
  processFunction V d direct b = Done b' →
  keeps G okNode okDispatch b'.
Proof using V_keeps G_direct G_indirect.
  intros K. unfold processFunction.
  set (callee := ASTNodeRef (declId d)).
  set (b1 := match m_currentNode b with
             | Some current => if direct then add current callee b else b
             | None => b
             end).
  assert (K1 : keeps G okNode okDispatch b1).
  { subst b1. destruct (m_currentNode b) as [cur|] eqn:Hcur; [|exact K].
    destruct direct; [|exact K]. destruct K as (HG & Hn & Hd).
    split; [apply G_direct; auto|]. split; assumption. }
  set (b2 := if direct then b1 else _).
  assert (K2 : keeps G okNode okDispatch b2).
  { subst b2. destruct direct; [exact K1|].
    destruct K1 as (HG1 & Hn1 & Hd1).
    split; [apply G_indirect; assumption|]. split; assumption. }
  destruct (isKey callee b2); [intros [= <-]; exact K2|].
  apply V_keeps, K2.
Qed.

Lemma visit_keeps k b b' :
  okKind k → keeps G okNode okDispatch b →
  visit rv contract V k b = Done b' →
  keeps G okNode okDispatch b'.
Proof using V_keeps G_direct G_indirect G_created.
  intros Hk K. destruct k as [d l t c|t| | |]; simpl;
    try (intros [= <-]; exact K).
  - unfold visit_Identifier.
    destruct d as [d|]; [|intros [= <-]; exact K].
    destruct (isCallableDeclaration d); [|intros [= <-]; exact K].
    intros H. apply bind_Done in H as (_ & _ & H0).
    destruct t as [[]| | |]; try (injection H0 as <-; exact K).
    apply bind_Done in H0 as (b1 & H1 & H2).
    apply bind_Done in H2 as (_ & _ & [= <-]).
    eapply processFunction_keeps; eassumption.
  - unfold visit_NewExpression.
    destruct t as [kd|C isSuper|t|]; intros [= <-]; try exact K.
    destruct K as (HG & Hn & Hd).
    split; [apply (G_created _ C isSuper); assumption|]. split; assumption.
Qed.

Lemma endVisit_keeps k b b' :
  keeps G okNode okDispatch b →
  endVisit rv rvf sc contract V k b = Done b' →
  keeps G okNode okDispatch b'.
Proof using V_keeps G_direct G_indirect.
  intros K. destruct k as [|t|t d l e c|d l|]; simpl;
    try (intros [= <-]; exact K).
  - unfold endVisit_MemberAccess.
    destruct t as [[]| | |]; try (intros [= <-]; exact K).
    destruct d as [d|]; [|intros [= <-]; exact K].
    case_bool_decide; [|intros [= <-]; exact K].
    intros Hr. apply bind_Done in Hr as (d' & _ & Hr).
    eapply processFunction_keeps; eassumption.
  - unfold endVisit_ModifierInvocation.
    destruct d as [d|]; [|intros [= <-]; exact K].
    case_bool_decide; [|intros [= <-]; exact K].
    intros Hr. apply bind_Done in Hr as (d' & _ & Hr).
    eapply processFunction_keeps; eassumption.
Qed.

Lemma accept_keeps t :
  allKinds okKind t →
  ∀ b b', keeps G okNode okDispatch b →
          accept rv rvf sc contract V t b = Done b' →
          keeps G okNode okDispatch b'.
Proof using V_keeps G_direct G_indirect G_created.
  induction t as [kind children IH] using ASTNode_ind.
  intros Hall b b' K. inversion Hall as [k ch Hk Hch]; subst.
  rewrite accept_unfold. intros H.
  apply bind_Done in H as (b1 & H1 & H0).
  apply bind_Done in H0 as (b2 & H2 & H3).
  apply (visit_keeps _ _ _ Hk K) in H1.
  eapply endVisit_keeps; [|exact H3].
  clear H3 K Hall Hk. revert b1 H1 H2.
  induction IH as [|c l Hc _ IHl]; simpl; intros b1 K1 H2.
  - injection H2 as <-. exact K1.
  - apply bind_Done in H2 as (bc & Hbc & H2).
    apply Forall_cons in Hch as [Hc1 Hl].
    eapply IHl; [exact Hl| |exact H2]. eapply Hc; eassumption.
Qed.

Lemma listAccept_keeps l :
  Forall (allKinds okKind) l →
  ∀ b b', keeps G okNode okDispatch b →
          listAccept rv rvf sc contract V l b = Done b' →
          keeps G okNode okDispatch b'.
Proof using V_keeps G_direct G_indirect G_created.
  induction l as [|c l IHl]; simpl; intros Hall b b' K H.
  - injection H as <-. exact K.
  - apply bind_Done in H as (bc & Hbc & H0).
    apply Forall_cons in Hall as [Hc Hl].
    eapply IHl; [exact Hl| |exact H0]. eapply accept_keeps; eassumption.
Qed.

End BodyWalk.

Lemma childrenOf_ok c : Forall (allKinds okKind) (childrenOf callables c).
Proof using callables_ok.
  unfold childrenOf. destruct (callables !! c) as [l|] eqn:Hc; simpl.
  - eapply callables_ok, Hc.
  - constructor.
Qed.

Lemma visitCallable_keeps fuel :
  ∀ c b b', keeps G okNode okDispatch b →
            visitCallable rv rvf sc callables contract fuel c b = Done b' →
            keeps G okNode okDispatch b'.
Proof using okNode_callable G_direct G_indirect G_created callables_ok.
  induction fuel as [|fuel IH]; simpl; intros c b b' K H; [discriminate|].
  apply bind_Done in H as (_ & _ & H0).
  apply bind_Done in H0 as (b1 & H1 & [= <-]).
  apply (listAccept_keeps _ IH) in H1; [|apply childrenOf_ok|].
  - destruct K as (_ & Hn & _). destruct H1 as (HG1 & _ & Hd1).
    split; [exact HG1|]. split; [exact Hn | exact Hd1].
  - destruct K as (HG & _ & Hd). split; [exact HG|]. split; [|exact Hd].
    simpl. intros cur [= <-]. apply okNode_callable.
Qed.

Lemma creationLoop_keeps fuel l :
  Forall (λ cd, Forall (allKinds okKind) (stateVariables cd)
                ∧ Forall (allKinds okKind) (baseContracts cd)) l →
  ∀ b b', keeps G okNode okDispatch b →
          creationLoop rv rvf sc callables contract fuel l b = Done b' →
          keeps G okNode okDispatch b'.
Proof using okNode_callable G_direct G_indirect G_created callables_ok.
  induction l as [|cd l IHl]; simpl; intros Hall b b' K H.
  - injection H as <-. exact K.
  - apply Forall_cons in Hall as [[Hsv Hbc] Hl].
    apply bind_Done in H as (b0 & H0 & H).
    eapply IHl; [exact Hl| |exact H]. clear H IHl.
    unfold creationStep in H0.
    apply bind_Done in H0 as (b1 & H1 & H0).
    apply bind_Done in H0 as (b2 & H2 & H3).
    apply (listAccept_keeps _ (visitCallable_keeps fuel) _ Hsv _ _ K) in H1.
    apply (listAccept_keeps _ (visitCallable_keeps fuel) _ Hbc _ _ H1) in H2.
    destruct (constructor cd) as [ctor|]; [|injection H3 as <-; exact H2].
    destruct (m_currentNode b2) as [cur|] eqn:Hcur; [|discriminate].
    apply bind_Done in H3 as (b3 & H3 & [= <-]).
    apply (listAccept_keeps _ (visitCallable_keeps fuel)) in H3;
      [|apply childrenOf_ok|].
    + destruct H3 as (HG3 & _ & Hd3). split; [exact HG3|].
      split; [|exact Hd3]. simpl. intros c [= <-]. apply okNode_callable.
    + destruct H2 as (HG2 & Hn2 & Hd2).
      split; [apply G_direct; auto|]. split; assumption.
Qed.

Hypothesis G_entry :
  ∀ b c, G (m_graph b) → G (m_graph (add (Special Entry) (ASTNodeRef c) b)).

Lemma interfaceLoop_keeps fuel l :
  ∀ b b', keeps G okNode okDispatch b →
          interfaceLoop rv rvf sc callables contract fuel l b = Done b' →
          keeps G okNode okDispatch b'.
Proof using okNode_callable G_direct G_indirect G_created G_entry
  callables_ok.
  induction l as [|d l IHl]; simpl; intros b b' K H.
  - injection H as <-. exact K.
  - apply bind_Done in H as (b0 & H0 & H).
    eapply IHl; [|exact H]. clear H IHl.
    unfold interfaceStep in H0. case_bool_decide.
    + apply bind_Done in H0 as (b1 & H1 & [= <-]).
      assert (K1 : keeps G okNode okDispatch b1).
      { destruct (isKey _ b); [injection H1 as <-; exact K|].
        eapply visitCallable_keeps; eassumption. }
      destruct K1 as (HG1 & Hn1 & Hd1).
      split; [apply G_entry, HG1|]. split; assumption.
    + apply bind_Done in H0 as (_ & _ & [= <-]). exact K.
Qed.

End GraphInvariant.

Lemma create_Done rv rvf sc callables contract fuel g :
  create rv rvf sc callables contract fuel = Done g →
  ∃ b1 b3,
    creationLoop rv rvf sc callables contract fuel
      (rev (linearizedBaseContracts contract)) initialBuilder = Done b1
    ∧ interfaceLoop rv rvf sc callables contract fuel
        (interfaceFunctionList (definition contract))
        (setCurrentDispatch InternalDispatch (setCurrentNode None b1))
      = Done b3
    ∧ g = m_graph
            (addEntry (receiveFunction (definition contract))
               (addEntry (fallbackFunction (definition contract))
                  (add (Special InternalDispatch)
                     (Special InternalCreationDispatch) b3))).
Proof.
  unfold create, FunctionCallGraphBuilder. intros H.
  apply bind_Done in H as (b & H & [= <-]).
  apply bind_Done in H as (b1 & H1 & H).
  apply bind_Done in H as (b3 & H3 & [= <-]).
  exists b1, b3. split; [exact H1|]. split; [exact H3 | reflexivity].
Qed.

Lemma programKinds_rev P callables contract :
  programKinds P callables contract →
  Forall (λ cd, Forall (allKinds P) (stateVariables cd)
                ∧ Forall (allKinds P) (baseContracts cd))
    (rev (linearizedBaseContracts contract)).
Proof. intros [_ H]. apply Forall_rev, H. Qed.

Lemma allKinds_True t : allKinds (λ _, True) t.
Proof.
  induction t as [kind children IH] using ASTNode_ind.
  constructor; [exact I | exact IH].
Qed.

Lemma programKinds_True callables contract :
  programKinds (λ _, True) callables contract.
Proof.
  split.
  - intros c l _. apply Forall_forall. intros t _. apply allKinds_True.
  - apply Forall_forall. intros cd _.
    split; apply Forall_forall; intros t _; apply allKinds_True.
Qed.

(** A property of graphs that holds of the empty graph and is preserved by
    every insertion the builder makes holds of every graph it returns. *)
Lemma create_keeps rv rvf sc callables contract
    (G : ContractCallGraph → Prop) (okNode : Node → Prop)
    (okDispatch : SpecialNode → Prop) (okKind : NodeKind → Prop) fuel g :
  (∀ c, okNode (ASTNodeRef c)) →
  okNode (Special EntryCreation) →
  okDispatch InternalCreationDispatch →
  okDispatch InternalDispatch →
  G (mkGraph ∅ ∅) →
  (∀ b current c, G (m_graph b) → okNode current →
     G (m_graph (add current (ASTNodeRef c) b))) →
  (∀ b d c, G (m_graph b) → okDispatch d →
     G (m_graph (add (ASTNodeRef c) (Special d)
                   (add (Special d) (ASTNodeRef c) b)))) →
  (∀ g C isSuper, okKind (NewExpression (ContractType C isSuper)) → G g →
     G (mkGraph (edges g) ({[C]} ∪ createdContracts g))) →
  (∀ b c, G (m_graph b) →
     G (m_graph (add (Special Entry) (ASTNodeRef c) b))) →
  (∀ b, G (m_graph b) →
     G (m_graph (add (Special InternalDispatch)
                   (Special InternalCreationDispatch) b))) →
  programKinds okKind callables contract →
  create rv rvf sc callables contract fuel = Done g →
  G g.
Proof.
  intros Hcallable HEC HICD HID Hempty Hdirect Hindirect Hcreated Hentry
    Hbridge Hprog H.
  apply create_Done in H as (b1 & b3 & H1 & H3 & ->).
  apply (creationLoop_keeps rv rvf sc callables contract G okNode okDispatch
           okKind Hcallable Hdirect Hindirect Hcreated (proj1 Hprog)) in H1;
    [|apply (programKinds_rev _ callables), Hprog|].
  - destruct H1 as (HG1 & _ & _).
    apply (interfaceLoop_keeps rv rvf sc callables contract G okNode
             okDispatch okKind Hcallable Hdirect Hindirect Hcreated
             (proj1 Hprog) Hentry) in H3.
    + destruct H3 as (HG3 & _ & _).
      assert (HE : ∀ f b, G (m_graph b) → G (m_graph (addEntry f b))).
      { intros [f|] b HGb; simpl; [apply Hentry, HGb | exact HGb]. }
      apply HE, HE, Hbridge, HG3.
    + split; [exact HG1|]. split; [discriminate | exact HID].
  - split; [exact Hempty|]. split; [|exact HICD].
    simpl. intros cur [= <-]. exact HEC.
Qed.

Lemma setCurrentNode_same_node b c :
  setCurrentNode (m_currentNode b) (setCurrentNode c b) = b.
Proof. destruct b. reflexivity. Qed.

Lemma visit_refersToNothing rv contract V k b :
  refersToNothing k → visit rv contract V k b = Done b.
Proof.
  destruct k as [[d|] l t c|t| | |]; simpl; try reflexivity.
  - unfold visit_Identifier. intros [->|[-> Ht]]; [reflexivity|].
    destruct (isCallableDeclaration d); [|reflexivity]. simpl.
    destruct t as [[]| | |]; try reflexivity. destruct Ht. reflexivity.
  - unfold visit_NewExpression. intros Ht.
    destruct t as [kd|C isSuper|t|]; try reflexivity.
    destruct (Ht C isSuper). reflexivity.
Qed.

Lemma endVisit_refersToNothing rv rvf sc contract V k b :
  refersToNothing k → endVisit rv rvf sc contract V k b = Done b.
Proof.
  destruct k as [|t|t d l e c|d l|]; simpl; try reflexivity.
  - unfold endVisit_MemberAccess. intros [Ht|Hd].
    + destruct t as [[]| | |]; try reflexivity. destruct Ht. reflexivity.
    + destruct t as [[]| | |]; try reflexivity.
      destruct d as [f|]; [|reflexivity].
      rewrite bool_decide_eq_false_2 by (apply Hd; reflexivity). reflexivity.
  - unfold endVisit_ModifierInvocation. intros Hd.
    destruct d as [m|]; [|reflexivity].
    rewrite bool_decide_eq_false_2 by (apply Hd; reflexivity). reflexivity.
Qed.

Lemma accept_refersToNothing rv rvf sc contract V t :
  allKinds refersToNothing t →
  ∀ b, accept rv rvf sc contract V t b = Done b.
Proof.
  induction t as [kind children IH] using ASTNode_ind.
  intros Hall b. inversion Hall as [k ch Hk Hch]; subst.
  rewrite accept_unfold, visit_refersToNothing by exact Hk. simpl.
  assert (HL : listAccept rv rvf sc contract V children b = Done b).
  { clear Hall Hk. revert b.
    induction IH as [|c l Hc _ IHl]; simpl; intros b; [reflexivity|].
    apply Forall_cons in Hch as [Hc1 Hl].
    rewrite (Hc Hc1). simpl. apply IHl, Hl. }
  rewrite HL. simpl. apply endVisit_refersToNothing, Hk.
Qed.

Lemma listAccept_refersToNothing rv rvf sc contract V l :
  Forall (allKinds refersToNothing) l →
  ∀ b, listAccept rv rvf sc contract V l b = Done b.
Proof.
  induction l as [|c l IHl]; simpl; intros Hall b; [reflexivity|].
  apply Forall_cons in Hall as [Hc Hl].
  rewrite accept_refersToNothing by exact Hc. simpl. apply IHl, Hl.
Qed.

Lemma visitCallable_refersToNothing rv rvf sc callables contract fuel c b :
  Forall (allKinds refersToNothing) (childrenOf callables c) →
  isKey (ASTNodeRef c) b = false →
  visitCallable rv rvf sc callables contract (S fuel) c b = Done b.
Proof.
  intros Hall Hk. simpl. rewrite Hk. simpl.
  rewrite listAccept_refersToNothing by exact Hall. simpl.
  rewrite setCurrentNode_same_node. reflexivity.
Qed.

(** X3: a subtree without a reference to an internal function or modifier
    and without an instantiation of a contract leaves the builder as it is,
    whatever else it contains.  So does the visit of a callable whose
    children are such subtrees: the callable is not a key afterwards
    either, and a later reference visits it again. *)
Theorem X3_subtree_without_references_changes_nothing
    (rv : Declaration → Contract → Declaration)
    (rvf : Declaration → Contract → option Z → Declaration)
    (sc : Z → Contract → option Z)
    (callables : gmap Z (list ASTNode)) (contract : Contract) :
  (∀ V t b, allKinds refersToNothing t →
            accept rv rvf sc contract V t b = Done b)
  ∧ (∀ fuel c b,
       Forall (allKinds refersToNothing) (childrenOf callables c) →
       isKey (ASTNodeRef c) b = false →
       visitCallable rv rvf sc callables contract (S fuel) c b = Done b)
  ∧ (∀ fuel d b current,
       Forall (allKinds refersToNothing) (childrenOf callables (declId d)) →
       m_currentNode b = Some current →
       current ≠ ASTNodeRef (declId d) →
       isKey (ASTNodeRef (declId d)) b = false →
       processFunction (visitCallable rv rvf sc callables contract (S fuel))
         d true b
       = Done (add current (ASTNodeRef (declId d)) b)
       ∧ isKey (ASTNodeRef (declId d))
           (add current (ASTNodeRef (declId d)) b) = false).
Proof.
  split; [|split].
  - intros V t b Hall. apply accept_refersToNothing, Hall.
  - intros fuel c b. apply visitCallable_refersToNothing.
  - intros fuel d b current Hall Hcur Hne Hk.
    assert (Hk' : isKey (ASTNodeRef (declId d))
                    (add current (ASTNodeRef (declId d)) b) = false).
    { apply isKey_false. rewrite dom_add. apply isKey_false in Hk.
      intros Hin. apply elem_of_union in Hin as [Hin|Hin]; [|auto].
      apply elem_of_singleton in Hin. auto. }
    split; [|exact Hk'].
    unfold processFunction. rewrite Hcur, Hk'.
    apply visitCallable_refersToNothing; assumption.
Qed.

Lemma X3_leaf_callable_witness :
  visitCallable resolveVirtual resolveVirtualFrom superContract
    DirectCall.callables DirectCall.contract 1 20 initialBuilder
  = Done initialBuilder.
Proof.
  destruct (X3_subtree_without_references_changes_nothing resolveVirtual
              resolveVirtualFrom superContract DirectCall.callables
              DirectCall.contract) as (_ & Hvisit & _).
  apply Hvisit; [|reflexivity].
  repeat constructor.
Defined.

(** X4: every edge of a graph the builder returns leads to a declaration,
    or from a declaration to one of the two dispatch nodes of internal
    calls, or from [InternalDispatch] to [InternalCreationDispatch].  So
    no edge leads to [Entry] or to [EntryCreation], and the only edge
    between two special nodes is the fixed one. *)
Theorem X4_edge_shapes
    (rv : Declaration → Contract → Declaration)
    (rvf : Declaration → Contract → option Z → Declaration)
    (sc : Z → Contract → option Z)
    (callables : gmap Z (list ASTNode)) (contract : Contract)
    (fuel : nat) (g : ContractCallGraph) :
  create rv rvf sc callables contract fuel = Done g →
  (∀ x y, hasEdge g x y → edgeShape x y = true)
  ∧ (∀ x, ¬ hasEdge g x (Special Entry))
  ∧ (∀ x, ¬ hasEdge g x (Special EntryCreation))
  ∧ (∀ s t, hasEdge g (Special s) (Special t) →
            s = InternalDispatch ∧ t = InternalCreationDispatch).
Proof.
  intros H.
  assert (HG : ∀ x y, hasEdge g x y → edgeShape x y = true).
  { apply (create_keeps rv rvf sc callables contract
             (λ g, ∀ x y, hasEdge g x y → edgeShape x y = true)
             (λ _, True)
             (λ d, d = InternalCreationDispatch ∨ d = InternalDispatch)
             (λ _, True) fuel g); auto.
    - intros x y Hxy. unfold hasEdge, successors in Hxy. simpl in Hxy.
      rewrite lookup_empty in Hxy. simpl in Hxy.
      apply not_elem_of_empty in Hxy. destruct Hxy.
    - intros b cur c Hb _ x y Hxy.
      apply hasEdge_add in Hxy as [Hxy|[-> ->]]; [auto|].
      destruct cur as [i|[]]; reflexivity.
    - intros b d c Hb Hd x y Hxy.
      apply hasEdge_add in Hxy as [Hxy|[-> ->]].
      + apply hasEdge_add in Hxy as [Hxy|[-> ->]]; [auto|].
        destruct d; reflexivity.
      + destruct Hd as [-> | ->]; reflexivity.
    - intros b c Hb x y Hxy.
      apply hasEdge_add in Hxy as [Hxy|[-> ->]]; [auto | reflexivity].
    - intros b Hb x y Hxy.
      apply hasEdge_add in Hxy as [Hxy|[-> ->]]; [auto | reflexivity].
    - apply programKinds_True. }
  split; [exact HG|]. split; [|split].
  - intros x Hx. apply HG in Hx. destruct x as [i|[]]; discriminate.
  - intros x Hx. apply HG in Hx. destruct x as [i|[]]; discriminate.
  - intros s t Hst. apply HG in Hst.
    destruct s, t; try discriminate. split; reflexivity.
Qed.

Lemma X4_edge_shapes_witness :
  edgeShape (Special InternalDispatch) (ASTNodeRef 40) = true.
Proof.
  refine (proj1
    (X4_edge_shapes resolveVirtual resolveVirtualFrom superContract
       Indirect.callables Indirect.contract 5%nat _ _) _ _ _).
  - vm_compute. reflexivity.
  - by_computation.
Defined.

(** X5: in every graph the builder returns, the keys of the edge map are
    the nodes with an outgoing edge: no key has an empty set of
    successors.  A node that only is the target of edges is not a key. *)
Theorem X5_keys_have_successors
    (rv : Declaration → Contract → Declaration)
    (rvf : Declaration → Contract → option Z → Declaration)
    (sc : Z → Contract → option Z)
    (callables : gmap Z (list ASTNode)) (contract : Contract)
    (fuel : nat) (g : ContractCallGraph) :
  create rv rvf sc callables contract fuel = Done g →
  ∀ k, k ∈ dom (edges g) ↔ ∃ y, hasEdge g k y.
Proof.
  intros H.
  assert (HG : ∀ k s, edges g !! k = Some s → ∃ y, y ∈ s).
  { assert (Hadd : ∀ b u v,
              (∀ k s, edges (m_graph b) !! k = Some s → ∃ y, y ∈ s) →
              ∀ k s, edges (m_graph (add u v b)) !! k = Some s →
                     ∃ y, y ∈ s).
    { intros b u v Hb k s. unfold add. simpl. rewrite lookup_insert.
      destruct (decide (u = k)) as [->|Hne].
      - intros [= <-]. exists v. apply elem_of_union_l, elem_of_singleton.
        reflexivity.
      - apply Hb. }
    apply (create_keeps rv rvf sc callables contract
             (λ g, ∀ k s, edges g !! k = Some s → ∃ y, y ∈ s)
             (λ _, True) (λ _, True) (λ _, True) fuel g); auto.
    - intros k s. simpl. rewrite lookup_empty. discriminate.
    - intros b cur c Hb _. apply Hadd, Hb.
    - intros b d c Hb _. apply Hadd, Hadd, Hb.
    - intros b c Hb. apply Hadd, Hb.
    - intros b Hb. apply Hadd, Hb.
    - apply programKinds_True. }
  intros k. unfold hasEdge, successors. split.
  - intros Hk. apply elem_of_dom in Hk as [s Hs]. rewrite Hs. simpl.
    eapply HG, Hs.
  - intros [y Hy]. apply elem_of_dom.
    destruct (edges g !! k) as [s|]; [eauto|].
    simpl in Hy. apply not_elem_of_empty in Hy. destruct Hy.
Qed.

Lemma X5_keys_have_successors_witness :
  ∃ y, hasEdge
         (mkGraph
            {[Special InternalDispatch :=
                {[Special InternalCreationDispatch]};
              Special EntryCreation := {[ASTNodeRef 10; ASTNodeRef 20]}]}
            ∅)
         (Special EntryCreation) y.
Proof.
  refine (proj1
    (X5_keys_have_successors resolveVirtual resolveVirtualFrom
       superContract DirectCall.callables DirectCall.contract 3%nat _ _
       (Special EntryCreation)) _).
  - vm_compute. reflexivity.
  - by_computation.
Defined.

(** X6: when every instantiation expression of the code names a contract
    with [P], every created contract of a graph the builder returns has
    [P]: contracts get into [createdContracts] from instantiation
    expressions only, and code without one gives the empty set. *)
Theorem X6_created_contracts_are_instantiated
    (rv : Declaration → Contract → Declaration)
    (rvf : Declaration → Contract → option Z → Declaration)
    (sc : Z → Contract → option Z)
    (callables : gmap Z (list ASTNode)) (contract : Contract)
    (P : Z → Prop) (fuel : nat) (g : ContractCallGraph) :
  programKinds
    (λ k, ∀ C isSuper, k = NewExpression (ContractType C isSuper) → P C)
    callables contract →
  create rv rvf sc callables contract fuel = Done g →
  ∀ C, C ∈ createdContracts g → P C.
Proof.
  intros Hprog H.
  apply (create_keeps rv rvf sc callables contract
           (λ g, ∀ C, C ∈ createdContracts g → P C)
           (λ _, True) (λ _, True)
           (λ k, ∀ C isSuper, k = NewExpression (ContractType C isSuper) →
                              P C)
           fuel g); auto.
  - intros C HC. simpl in HC. apply not_elem_of_empty in HC. destruct HC.
  - intros g0 C isSuper HC Hg0 C0 HC0. simpl in HC0.
    apply elem_of_union in HC0 as [HC0|HC0]; [|auto].
    apply elem_of_singleton in HC0 as ->. eapply HC. reflexivity.
Qed.

Lemma X6_created_contracts_witness : 0 < 5.
Proof.
  refine (X6_created_contracts_are_instantiated resolveVirtual
            resolveVirtualFrom superContract Instantiation.callables
            Instantiation.contract (λ C, 0 < C) 2%nat
            (mkGraph
               {[Special InternalDispatch :=
                   {[Special InternalCreationDispatch]};
                 Special EntryCreation := {[ASTNodeRef 10]}]}
               {[5]}) _ _ 5 _).
  - split.
    + intros c l Hl. unfold Instantiation.callables in Hl.
      apply lookup_singleton_Some in Hl as [<- <-].
      repeat (constructor; try (intros ? ? [=]; subst; try lia)).
    + repeat constructor.
  - vm_compute. reflexivity.
  - by_computation.
Defined.

(** ** Edges stay, and the chain of constructors *)

Lemma subgraph_refl g : subgraph g g.
Proof. split; [auto | reflexivity]. Qed.

Lemma subgraph_trans g1 g2 g3 :
  subgraph g1 g2 → subgraph g2 g3 → subgraph g1 g3.
Proof. intros [E1 C1] [E2 C2]. split; [auto | etrans; eassumption]. Qed.

Lemma extends_subgraph b b' :
  extends b b' → subgraph (m_graph b) (m_graph b').
Proof.
  intros E. split.
  - intros x y. apply (ext_edges _ _ E).
  - apply (ext_created _ _ E).
Qed.

Lemma add_subgraph x y b : subgraph (m_graph b) (m_graph (add x y b)).
Proof.
  split; [|reflexivity]. intros u v Huv. apply hasEdge_add. tauto.
Qed.

Lemma addEntry_subgraph f b : subgraph (m_graph b) (m_graph (addEntry f b)).
Proof. destruct f; [apply add_subgraph | apply subgraph_refl]. Qed.

Lemma default_last_cons {A} (d x : A) (l : list A) :
  default d (last (x :: l)) = default x (last l).
Proof.
  revert d x. induction l as [|a l IHl]; intros d x; [reflexivity|].
  change (last (x :: a :: l)) with (last (a :: l)).
  rewrite (IHl d a), (IHl x a). reflexivity.
Qed.

Section Growth.

Variable rv : Declaration → Contract → Declaration.
Variable rvf : Declaration → Contract → option Z → Declaration.
Variable sc : Z → Contract → option Z.
Variable callables : gmap Z (list ASTNode).
Variable contract : Contract.

(** One iteration of the creation loop keeps what is there; with a
    constructor it adds the edge from the current node to it and makes it
    the current node, without one the current node stays. *)
Lemma creationStep_grows fuel cd b b' current :
  m_currentNode b = Some current →
  creationStep rv rvf sc callables contract fuel cd b = Done b' →
  subgraph (m_graph b) (m_graph b')
  ∧ m_currentDispatch b' = m_currentDispatch b
  ∧ match constructor cd with
    | Some ctor =>
        hasEdge (m_graph b') current (ASTNodeRef ctor)
        ∧ m_currentNode b' = Some (ASTNodeRef ctor)
    | None => m_currentNode b' = Some current
    end.
Proof.
  intros Hcur H. unfold creationStep in H.
  apply bind_Done in H as (b1 & H1 & H).
  apply bind_Done in H as (b2 & H2 & H3).
  apply listAccept_visitCallable_extends in H1, H2.
  pose proof (extends_trans _ _ _ H1 H2) as E.
  assert (Hcur2 : m_currentNode b2 = Some current)
    by (rewrite (ext_node _ _ E); exact Hcur).
  destruct (constructor cd) as [ctor|].
  - rewrite Hcur2 in H3. apply bind_Done in H3 as (b3 & H3 & [= <-]).
    apply listAccept_visitCallable_extends in H3.
    split; [|split; [|split]].
    + eapply subgraph_trans; [apply extends_subgraph, E|].
      eapply subgraph_trans; [apply add_subgraph|].
      apply (extends_subgraph _ _ H3).
    + simpl. rewrite (ext_dispatch _ _ H3). simpl. apply (ext_dispatch _ _ E).
    + apply (extends_subgraph _ _ H3), hasEdge_add. tauto.
    + reflexivity.
  - injection H3 as <-. split; [apply extends_subgraph, E|].
    split; [apply (ext_dispatch _ _ E) | exact Hcur2].
Qed.

Lemma creationLoop_grows fuel l :
  ∀ b b' current,
    m_currentNode b = Some current →
    creationLoop rv rvf sc callables contract fuel l b = Done b' →
    subgraph (m_graph b) (m_graph b')
    ∧ m_currentDispatch b' = m_currentDispatch b
    ∧ chained (m_graph b') current (constructorsOf l)
    ∧ m_currentNode b' = Some (default current (last (constructorsOf l))).
Proof.
  induction l as [|cd l IHl]; simpl; intros b b' current Hcur H.
  - injection H as <-.
    split; [apply subgraph_refl|]. split; [reflexivity|].
    split; [exact I | exact Hcur].
  - apply bind_Done in H as (b0 & H0 & H).
    apply (creationStep_grows _ _ _ _ _ Hcur) in H0 as (S0 & D0 & H0).
    unfold constructorsOf. simpl.
    destruct (constructor cd) as [ctor|]; simpl.
    + destruct H0 as [Hedge Hcur0].
      apply (IHl _ _ _ Hcur0) in H as (S1 & D1 & Hch & Hlast).
      split; [eapply subgraph_trans; eassumption|].
      split; [congruence|]. split.
      * split; [apply (proj1 S1), Hedge | exact Hch].
      * rewrite Hlast. f_equal. symmetry. apply default_last_cons.
    + apply (IHl _ _ _ H0) in H as (S1 & D1 & Hch & Hlast).
      split; [eapply subgraph_trans; eassumption|].
      split; [congruence|]. split; assumption.
Qed.

Lemma interfaceLoop_grows fuel l :
  ∀ b b',
    interfaceLoop rv rvf sc callables contract fuel l b = Done b' →
    subgraph (m_graph b) (m_graph b').
Proof.
  induction l as [|d l IHl]; simpl; intros b b' H.
  - injection H as <-. apply subgraph_refl.
  - apply bind_Done in H as (b0 & H0 & H).
    eapply subgraph_trans; [|apply IHl, H]. clear H.
    unfold interfaceStep in H0. case_bool_decide.
    + apply bind_Done in H0 as (b1 & H1 & [= <-]).
      eapply subgraph_trans; [|apply add_subgraph].
      destruct (isKey _ b); [injection H1 as <-; apply subgraph_refl|].
      apply extends_subgraph. eapply visitCallable_extends, H1.
    + apply bind_Done in H0 as (_ & _ & [= <-]). apply subgraph_refl.
Qed.

End Growth.

Lemma chained_subgraph g g' x l :
  subgraph g g' → chained g x l → chained g' x l.
Proof.
  intros [HS _]. revert x. induction l as [|y l IHl]; simpl; intros x;
    [auto|]. intros [Hxy Hl]. split; [apply HS, Hxy | apply IHl, Hl].
Qed.

(** X7: the constructors of the linearized base contracts form a chain in
    every graph the builder returns, in the order of creation, which is
    the reverse of the linearization: [EntryCreation] has an edge to the
    constructor of the most base contract that has one, and every
    constructor has an edge to the next one. *)
Theorem X7_constructor_chain
    (rv : Declaration → Contract → Declaration)
    (rvf : Declaration → Contract → option Z → Declaration)
    (sc : Z → Contract → option Z)
    (callables : gmap Z (list ASTNode)) (contract : Contract)
    (fuel : nat) (g : ContractCallGraph) :
  create rv rvf sc callables contract fuel = Done g →
  chained g (Special EntryCreation)
    (constructorsOf (rev (linearizedBaseContracts contract))).
Proof.
  intros H. apply create_Done in H as (b1 & b3 & H1 & H3 & ->).
  apply (creationLoop_grows _ _ _ _ _ _ _ _ _ (Special EntryCreation)) in H1
    as (_ & _ & Hch & _); [|reflexivity].
  apply interfaceLoop_grows in H3.
  eapply chained_subgraph; [|exact Hch].
  eapply subgraph_trans; [exact H3|].
  eapply subgraph_trans; [apply add_subgraph|].
  eapply subgraph_trans; apply addEntry_subgraph.
Qed.

Lemma X7_constructor_chain_witness :
  chained
    (mkGraph
       {[Special InternalDispatch := {[Special InternalCreationDispatch]};
         Special EntryCreation := {[ASTNodeRef 11]};
         ASTNodeRef 11 := {[ASTNodeRef 12]}]}
       ∅)
    (Special EntryCreation) [ASTNodeRef 11; ASTNodeRef 12].
Proof.
  apply (X7_constructor_chain resolveVirtual resolveVirtualFrom
           superContract Constructors.callables Constructors.contract
           3%nat).
  vm_compute. reflexivity.
Defined.

(** ** The two phases keep apart *)

Lemma successors_add_ne x y b n :
  x ≠ n →
  successors (edges (m_graph (add x y b))) n
  = successors (edges (m_graph b)) n.
Proof. intros Hne. rewrite successors_add, decide_False by exact Hne. done. Qed.

Lemma successors_addEntry_ne f b n :
  n ≠ Special Entry →
  successors (edges (m_graph (addEntry f b))) n
  = successors (edges (m_graph b)) n.
Proof.
  intros Hne. destruct f as [f|]; [|reflexivity].
  apply successors_add_ne. congruence.
Qed.

Lemma hasEdge_addEntry_inv f b x y :
  hasEdge (m_graph (addEntry f b)) x y →
  hasEdge (m_graph b) x y ∨ (x = Special Entry ∧ ∃ c, y = ASTNodeRef c).
Proof.
  destruct f as [f|]; simpl; [|tauto]. fold (add (Special Entry) (ASTNodeRef f) b).
  intros H. apply hasEdge_add in H as [H|[-> ->]]; eauto.
Qed.

(** X8: the creation phase adds no edge from [Entry] or from
    [InternalDispatch] and none to [InternalDispatch]; the runtime phase
    keeps every edge of the creation phase, adds no edge from
    [EntryCreation] or from [InternalCreationDispatch], and the one edge it
    adds to [InternalCreationDispatch] is the fixed edge from
    [InternalDispatch]. *)
Theorem X8_phases_keep_apart
    (rv : Declaration → Contract → Declaration)
    (rvf : Declaration → Contract → option Z → Declaration)
    (sc : Z → Contract → option Z)
    (callables : gmap Z (list ASTNode)) (contract : Contract)
    (fuel : nat) (b1 : Builder) :
  creationLoop rv rvf sc callables contract fuel
    (rev (linearizedBaseContracts contract)) initialBuilder = Done b1 →
  successors (edges (m_graph b1)) (Special Entry) = ∅
  ∧ successors (edges (m_graph b1)) (Special InternalDispatch) = ∅
  ∧ (∀ x, ¬ hasEdge (m_graph b1) x (Special InternalDispatch))
  ∧ (∀ g, create rv rvf sc callables contract fuel = Done g →
       subgraph (m_graph b1) g
       ∧ successors (edges g) (Special EntryCreation)
         = successors (edges (m_graph b1)) (Special EntryCreation)
       ∧ successors (edges g) (Special InternalCreationDispatch)
         = successors (edges (m_graph b1)) (Special InternalCreationDispatch)
       ∧ (∀ x, hasEdge g x (Special InternalCreationDispatch) →
               hasEdge (m_graph b1) x (Special InternalCreationDispatch)
               ∨ x = Special InternalDispatch)).
Proof.
  intros H1.
  assert (K1 : keeps
    (λ g, successors (edges g) (Special Entry) = ∅
          ∧ successors (edges g) (Special InternalDispatch) = ∅
          ∧ ∀ x, ¬ hasEdge g x (Special InternalDispatch))
    (λ cur, cur = Special EntryCreation ∨ ∃ c, cur = ASTNodeRef c)
    (λ d, d = InternalCreationDispatch) b1).
  { eapply (creationLoop_keeps rv rvf sc callables contract _ _ _
              (λ _, True)); [..|exact H1].
    - intros c. right. eauto.
    - intros b cur c (HE & HD & HI) Hcur.
      assert (cur ≠ Special Entry ∧ cur ≠ Special InternalDispatch) as [? ?]
        by (destruct Hcur as [->|[i ->]]; split; discriminate).
      rewrite !successors_add_ne by assumption.
      split; [exact HE|]. split; [exact HD|].
      intros x Hx. apply hasEdge_add in Hx as [Hx|[_ Hx]];
        [eapply HI, Hx | discriminate].
    - intros b d c (HE & HD & HI) ->.
      rewrite !successors_add_ne by discriminate.
      split; [exact HE|]. split; [exact HD|].
      intros x Hx. apply hasEdge_add in Hx as [Hx|[_ Hx]]; [|discriminate].
      apply hasEdge_add in Hx as [Hx|[_ Hx]]; [eapply HI, Hx | discriminate].
    - intros g C isSuper _ HG. exact HG.
    - apply (proj1 (programKinds_True callables contract)).
    - apply programKinds_rev with (callables := callables),
        programKinds_True.
    - split; [|split; [|reflexivity]].
      + unfold hasEdge, successors. simpl. rewrite !lookup_empty. simpl.
        split; [reflexivity|]. split; [reflexivity|].
        intros x. apply not_elem_of_empty.
      + simpl. intros cur [= <-]. left. reflexivity. }
  destruct K1 as ((HE1 & HD1 & HI1) & _ & _).
  split; [exact HE1|]. split; [exact HD1|]. split; [exact HI1|].
  intros g Hg. apply create_Done in Hg as (b1' & b3 & H1' & H3 & ->).
  rewrite H1 in H1'. injection H1' as <-.
  assert (K3 : keeps
    (λ g, successors (edges g) (Special EntryCreation)
          = successors (edges (m_graph b1)) (Special EntryCreation)
          ∧ successors (edges g) (Special InternalCreationDispatch)
            = successors (edges (m_graph b1))
                (Special InternalCreationDispatch)
          ∧ ∀ x, hasEdge g x (Special InternalCreationDispatch) →
                 hasEdge (m_graph b1) x (Special InternalCreationDispatch))
    (λ cur, ∃ c, cur = ASTNodeRef c)
    (λ d, d = InternalDispatch) b3).
  { eapply (interfaceLoop_keeps rv rvf sc callables contract _ _ _
              (λ _, True)); [..|exact H3].
    - intros c. eauto.
    - intros b cur c (HE & HD & HI) [i ->].
      rewrite !successors_add_ne by discriminate.
      split; [exact HE|]. split; [exact HD|].
      intros x Hx. apply hasEdge_add in Hx as [Hx|[_ Hx]];
        [apply HI, Hx | discriminate].
    - intros b d c (HE & HD & HI) ->.
      rewrite !successors_add_ne by discriminate.
      split; [exact HE|]. split; [exact HD|].
      intros x Hx. apply hasEdge_add in Hx as [Hx|[_ Hx]]; [|discriminate].
      apply hasEdge_add in Hx as [Hx|[_ Hx]]; [apply HI, Hx | discriminate].
    - intros g C isSuper _ HG. exact HG.
    - apply (proj1 (programKinds_True callables contract)).
    - intros b c (HE & HD & HI).
      rewrite !successors_add_ne by discriminate.
      split; [exact HE|]. split; [exact HD|].
      intros x Hx. apply hasEdge_add in Hx as [Hx|[_ Hx]];
        [apply HI, Hx | discriminate].
    - split; [|split; [discriminate | reflexivity]].
      simpl. split; [reflexivity|]. split; [reflexivity | auto]. }
  destruct K3 as ((HE3 & HD3 & HI3) & _ & _).
  split; [|split; [|split]].
  - eapply subgraph_trans; [apply (interfaceLoop_grows _ _ _ _ _ _ _ _ _ H3)|].
    eapply subgraph_trans; [apply add_subgraph|].
    eapply subgraph_trans; apply addEntry_subgraph.
  - rewrite !successors_addEntry_ne, successors_add_ne by discriminate.
    exact HE3.
  - rewrite !successors_addEntry_ne, successors_add_ne by discriminate.
    exact HD3.
  - intros x Hx.
    apply hasEdge_addEntry_inv in Hx as [Hx|[_ [c Hx]]]; [|discriminate].
    apply hasEdge_addEntry_inv in Hx as [Hx|[_ [c Hx]]]; [|discriminate].
    apply hasEdge_add in Hx as [Hx|[-> _]]; [left; apply HI3, Hx | right].
    reflexivity.
Qed.

Lemma X8_phases_keep_apart_witness :
  ∃ b1,
    creationLoop resolveVirtual resolveVirtualFrom superContract
      Indirect.callables Indirect.contract 5
      (rev (linearizedBaseContracts Indirect.contract)) initialBuilder
    = Done b1
    ∧ successors (edges (m_graph b1)) (Special Entry) = ∅.
Proof.
  eexists.
  match goal with
  | |- ?A ∧ _ => assert (H : A) by (vm_compute; reflexivity)
  end.
  split; [exact H|].
  exact (proj1 (X8_phases_keep_apart _ _ _ _ _ _ _ H)).
Defined.

(** ** The target of a reference *)

Lemma processFunction_indirect V d b :
  processFunction V d false b =
  Done (add (ASTNodeRef (declId d)) (Special (m_currentDispatch b))
          (add (Special (m_currentDispatch b)) (ASTNodeRef (declId d)) b)).
Proof.
  unfold processFunction.
  assert (Hb : match m_currentNode b with
               | Some _ | _ => b
               end = b) by (destruct (m_currentNode b); reflexivity).
  rewrite Hb.
  match goal with
  | |- (if isKey ?c ?b2 then _ else _) = _ =>
      assert (Hk : isKey c b2 = true); [|rewrite Hk; reflexivity]
  end.
  apply isKey_true. rewrite dom_add.
  apply elem_of_union_l, elem_of_singleton. reflexivity.
Qed.

(** ** Assertions of the driver *)

Lemma interfaceLoop_not_Done rv rvf sc callables contract fuel d l :
  d ∈ l →
  declKind d ≠ FunctionDefinition → declKind d ≠ VariableDeclaration →
  ∀ b b',
    interfaceLoop rv rvf sc callables contract fuel l b ≠ Done b'.
Proof.
  intros Hin Hf Hv. induction l as [|d0 l IHl]; intros b b' H.
  - apply elem_of_nil in Hin. exact Hin.
  - simpl in H. apply bind_Done in H as (b0 & H0 & H).
    apply elem_of_cons in Hin as [<-|Hin]; [|eapply IHl; eassumption].
    unfold interfaceStep in H0.
    rewrite bool_decide_eq_false_2 in H0 by exact Hf.
    rewrite bool_decide_eq_false_2 in H0 by exact Hv. discriminate.
Qed.

(** X9: when the interface list has an entry that is neither a function
    definition nor a variable declaration, the builder returns no graph:
    it stops on an assertion. *)
Theorem X9_interface_entry_assertion
    (rv : Declaration → Contract → Declaration)
    (rvf : Declaration → Contract → option Z → Declaration)
    (sc : Z → Contract → option Z)
    (callables : gmap Z (list ASTNode)) (contract : Contract)
    (fuel : nat) (d : Declaration) :
  d ∈ interfaceFunctionList (definition contract) →
  declKind d ≠ FunctionDefinition →
  declKind d ≠ VariableDeclaration →
  (size callables < fuel)%nat →
  create rv rvf sc callables contract fuel = AssertionFailure.
Proof.
  intros Hin Hf Hv Hfuel.
  destruct (create rv rvf sc callables contract fuel) as [g| |] eqn:H.
  - apply create_Done in H as (b1 & b3 & _ & H3 & _).
    eapply interfaceLoop_not_Done in H3; [destruct H3|eassumption..].
  - reflexivity.
  - apply create_terminates in H; [destruct H | exact Hfuel].
Qed.

Lemma X9_interface_entry_witness :
  createGraph BadInterface.callables BadInterface.contract 2
  = AssertionFailure.
Proof.
  apply (X9_interface_entry_assertion _ _ _ _ _ _ BadInterface.e).
  - simpl. right. left.
  - discriminate.
  - discriminate.
  - vm_compute. lia.
Defined.

(** X10: an identifier that refers to a callable of internal function type
    and is visited when no current node is set is refused: the visit stops
    on an assertion, at the latest on the one after [processFunction]. *)
Theorem X10_identifier_needs_current_node
    (rv : Declaration → Contract → Declaration)
    (rvf : Declaration → Contract → option Z → Declaration)
    (sc : Z → Contract → option Z)
    (callables : gmap Z (list ASTNode)) (contract : Contract)
    (fuel : nat) (d : Declaration) (lookup : VirtualLookup)
    (direct : bool) (b : Builder) :
  isCallableDeclaration d = true →
  m_currentNode b = None →
  (size callables < fuel)%nat →
  visit rv contract (visitCallable rv rvf sc callables contract fuel)
    (Identifier (Some d) lookup (FunctionType Internal) direct) b
  = AssertionFailure.
Proof.
  intros Hd Hcur Hfuel.
  destruct (visit _ _ _ _ b) as [b'| |] eqn:H.
  - pose proof H as E.
    apply (visit_extends _ _ _ (visitCallable_extends _ _ _ _ _ _)) in E.
    simpl in H. unfold visit_Identifier in H. rewrite Hd in H.
    apply bind_Done in H as (_ & _ & H).
    apply bind_Done in H as (b1 & _ & H).
    apply bind_Done in H as (u & Hassert & [= <-]).
    apply solAssert_Done, bool_decide_eq_true in Hassert.
    rewrite (ext_node _ _ E), Hcur in Hassert.
    destruct Hassert as [x Hx]. discriminate.
  - reflexivity.
  - eapply visit_visitCallable_terminates in H; [destruct H | exact Hfuel].
Qed.

Lemma X10_identifier_witness :
  visit resolveVirtual Recursion.contract
    (visitCallable resolveVirtual resolveVirtualFrom superContract
       Recursion.callables Recursion.contract 4)
    (Identifier (Some Recursion.f) Virtual (FunctionType Internal) true)
    (setCurrentNode None initialBuilder)
  = AssertionFailure.
Proof.
  apply X10_identifier_needs_current_node.
  - reflexivity.
  - reflexivity.
  - vm_compute. lia.
Defined.

(** ** The recursion budget

    A run that does not use up its budget gives the same result with any
    larger budget. *)



Section Budget.

Variable rv : Declaration → Contract → Declaration.
Variable rvf : Declaration → Contract → option Z → Declaration.
Variable sc : Z → Contract → option Z.
Variable callables : gmap Z (list ASTNode).
Variable contract : Contract.

Section BodyWalk.

Variables V V' : Z → Builder → Result Builder.
Hypothesis V_stable : ∀ c b, V c b ≠ OutOfFuel → V' c b = V c b.






End BodyWalk.





End Budget.



(** X12: a visit of a callable that returns has restored the current node
    and left the dispatch node as it was; the edge map has every key and
    every edge it had, and the created contracts are still there. *)
Theorem X12_visitCallable_restores_context
    (rv : Declaration → Contract → Declaration)
    (rvf : Declaration → Contract → option Z → Declaration)
    (sc : Z → Contract → option Z)
    (callables : gmap Z (list ASTNode)) (contract : Contract)
    (fuel : nat) (c : Z) (b b' : Builder) :
  visitCallable rv rvf sc callables contract fuel c b = Done b' →
  m_currentNode b' = m_currentNode b
  ∧ m_currentDispatch b' = m_currentDispatch b
  ∧ dom (edges (m_graph b)) ⊆ dom (edges (m_graph b'))
  ∧ subgraph (m_graph b) (m_graph b')
  ∧ isKey (ASTNodeRef c) b = false.
Proof.
  intros H. pose proof (visitCallable_extends _ _ _ _ _ _ _ _ _ H) as E.
  split; [apply (ext_node _ _ E)|]. split; [apply (ext_dispatch _ _ E)|].
  split; [apply (ext_keys _ _ E)|]. split; [apply extends_subgraph, E|].
  destruct fuel as [|fuel]; [discriminate|]. simpl in H.
  apply bind_Done in H as (u & Hk & _).
  apply solAssert_Done, negb_true_iff in Hk. exact Hk.
Qed.

Lemma X12_visitCallable_witness :
  ∃ b', visitCallable resolveVirtual resolveVirtualFrom superContract
          Recursion.callables Recursion.contract 3 30 initialBuilder
        = Done b'
      ∧ m_currentNode b' = Some (Special EntryCreation).
Proof.
  eexists.
  match goal with
  | |- ?A ∧ _ => assert (H : A) by (vm_compute; reflexivity)
  end.
  split; [exact H|].
  exact (proj1 (X12_visitCallable_restores_context _ _ _ _ _ _ _ _ _ H)).
Defined.

(** ** Every node of a walked subtree is visited *)

Section Reach.

Variable rv : Declaration → Contract → Declaration.
Variable rvf : Declaration → Contract → option Z → Declaration.
Variable sc : Z → Contract → option Z.
Variable contract : Contract.
Variable V : Z → Builder → Result Builder.
Hypothesis V_extends : ∀ c b b', V c b = Done b' → extends b b'.

Lemma listAccept_split l t :
  t ∈ l →
  ∀ b b', listAccept rv rvf sc contract V l b = Done b' →
          ∃ b0 b1, extends b b0
                   ∧ accept rv rvf sc contract V t b0 = Done b1
                   ∧ extends b1 b'.
Proof using V_extends.
  induction l as [|c l IHl]; intros Hin b b' H.
  - apply elem_of_nil in Hin. destruct Hin.
  - simpl in H. apply bind_Done in H as (bc & Hbc & H).
    apply elem_of_cons in Hin as [->|Hin].
    + exists b, bc. split; [apply extends_refl|]. split; [exact Hbc|].
      eapply listAccept_extends; eassumption.
    + destruct (IHl Hin _ _ H) as (b0 & b1 & E0 & Ht & E1).
      exists b0, b1. split; [|split; assumption].
      eapply extends_trans; [|exact E0].
      eapply accept_extends; eassumption.
Qed.

Lemma accept_visits P t :
  someKind P t →
  ∀ b b', accept rv rvf sc contract V t b = Done b' →
          ∃ k, P k ∧ visitedBetween rv rvf sc contract V k b b'.
Proof using V_extends.
  induction t as [kind children IH] using ASTNode_ind.
  intros Hsome b b'. rewrite accept_unfold. intros H.
  apply bind_Done in H as (b1 & H1 & H).
  apply bind_Done in H as (b2 & H2 & H3).
  inversion Hsome as [k ch Hk|k ch t Hin Ht]; subst.
  - exists kind. split; [exact Hk|].
    exists b, b1, b2, b'. split; [apply extends_refl|].
    split; [exact H1|]. split; [eapply listAccept_extends; eassumption|].
    split; [exact H3 | apply extends_refl].
  - destruct (listAccept_split _ _ Hin _ _ H2) as (c0 & c1 & E0 & Hc & E1).
    rewrite Forall_forall in IH.
    destruct (IH t Hin Ht _ _ Hc) as (k & Hk & d0 & d1 & d2 & d3 & F0 & Hv
                                        & F1 & He & F2).
    exists k. split; [exact Hk|]. exists d0, d1, d2, d3.
    split.
    { eapply extends_trans; [eapply visit_extends; eassumption|].
      eapply extends_trans; eassumption. }
    split; [exact Hv|]. split; [exact F1|]. split; [exact He|].
    eapply extends_trans; [exact F2|].
    eapply extends_trans; [exact E1|].
    eapply endVisit_extends; eassumption.
Qed.

Lemma listAccept_visits P l t :
  t ∈ l → someKind P t →
  ∀ b b', listAccept rv rvf sc contract V l b = Done b' →
          ∃ k, P k ∧ visitedBetween rv rvf sc contract V k b b'.
Proof using V_extends.
  intros Hin Ht b b' H.
  destruct (listAccept_split _ _ Hin _ _ H) as (c0 & c1 & E0 & Hc & E1).
  destruct (accept_visits _ _ Ht _ _ Hc) as (k & Hk & d0 & d1 & d2 & d3 & F0
                                               & Hv & F1 & He & F2).
  exists k. split; [exact Hk|]. exists d0, d1, d2, d3.
  split; [eapply extends_trans; eassumption|].
  split; [exact Hv|]. split; [exact F1|]. split; [exact He|].
  eapply extends_trans; eassumption.
Qed.

(** A visited reference went through [processFunction] with its target. *)
Lemma visitedBetween_processFunction k b b' d direct :
  referenceTarget rv rvf sc contract k = Some (d, direct) →
  visitedBetween rv rvf sc contract V k b b' →
  ∃ b0 b1, extends b b0 ∧ processFunction V d direct b0 = Done b1
           ∧ extends b1 b'.
Proof using V_extends.
  intros Hk (b0 & b1 & b2 & b3 & E0 & Hv & E1 & He & E2).
  destruct k as [f l t c|t|t f l e c|m l|]; simpl in Hk; try discriminate.
  - destruct f as [f|]; [|discriminate].
    destruct l; try discriminate.
    destruct t as [[]| | |]; try discriminate.
    simpl in Hv. unfold visit_Identifier in Hv.
    destruct (isCallableDeclaration f); [|discriminate].
    injection Hk as <- <-. simpl in Hv.
    apply bind_Done in Hv as (b1' & Hp & Hv).
    apply bind_Done in Hv as (u' & _ & [= ->]).
    exists b0, b1. split; [exact E0|]. split; [exact Hp|].
    simpl in He. injection He as <-. eapply extends_trans; eassumption.
  - destruct t as [[]| | |]; try discriminate.
    destruct f as [f|]; [|discriminate].
    simpl in Hv. injection Hv as <-.
    simpl in He. unfold endVisit_MemberAccess in He.
    destruct (bool_decide (declKind f = FunctionDefinition));
      [|discriminate].
    exists b2, b3. split; [eapply extends_trans; eassumption|].
    split; [|exact E2].
    apply bind_Done in He as (f' & Hf' & He).
    destruct l.
    + injection Hk as <- <-. simpl in Hf'. injection Hf' as <-. exact He.
    + discriminate.
    + simpl in Hf'.
      destruct e as [kd|C s|[kd|C [|]|e0|]|]; try discriminate;
        injection Hk as <- <-; injection Hf' as <-; exact He.
  - destruct m as [m|]; [|discriminate].
    simpl in Hv. injection Hv as <-.
    simpl in He. unfold endVisit_ModifierInvocation in He.
    destruct (bool_decide (declKind m = ModifierDefinition));
      [|discriminate].
    exists b2, b3. split; [eapply extends_trans; eassumption|].
    split; [|exact E2].
    apply bind_Done in He as (m' & Hm' & He).
    destruct l; try discriminate; injection Hk as <- <-;
      simpl in Hm'; injection Hm' as <-; exact He.
Qed.

(** The edges a reference of a walked subtree leaves. *)
Lemma listAccept_reference_edges l t d direct b b' :
  t ∈ l →
  someKind (λ k, referenceTarget rv rvf sc contract k = Some (d, direct)) t →
  listAccept rv rvf sc contract V l b = Done b' →
  if direct then
    ∀ current, m_currentNode b = Some current →
               hasEdge (m_graph b') current (ASTNodeRef (declId d))
  else
    hasEdge (m_graph b') (Special (m_currentDispatch b))
      (ASTNodeRef (declId d))
    ∧ hasEdge (m_graph b') (ASTNodeRef (declId d))
        (Special (m_currentDispatch b)).
Proof using V_extends.
  intros Hin Ht H.
  destruct (listAccept_visits _ _ _ Hin Ht _ _ H) as (k & Hk & Hvis).
  destruct (visitedBetween_processFunction _ _ _ _ _ Hk Hvis)
    as (b0 & b1 & E0 & Hp & E1).
  destruct direct.
  - intros current Hcur.
    apply (ext_edges _ _ E1).
    eapply processFunction_direct_edge; [exact V_extends| |exact Hp].
    rewrite (ext_node _ _ E0). exact Hcur.
  - rewrite processFunction_indirect in Hp. injection Hp as <-.
    rewrite <- (ext_dispatch _ _ E0).
    split; apply (ext_edges _ _ E1); unfold hasEdge.
    + rewrite successors_add_ne by discriminate.
      rewrite successors_add, decide_True by reflexivity.
      apply elem_of_union_l, elem_of_singleton. reflexivity.
    + rewrite successors_add, decide_True by reflexivity.
      apply elem_of_union_l, elem_of_singleton. reflexivity.
Qed.

Lemma listAccept_instantiation l t C b b' :
  t ∈ l →
  someKind (λ k, ∃ isSuper, k = NewExpression (ContractType C isSuper)) t →
  listAccept rv rvf sc contract V l b = Done b' →
  C ∈ createdContracts (m_graph b').
Proof using V_extends.
  intros Hin Ht H.
  destruct (listAccept_visits _ _ _ Hin Ht _ _ H)
    as (k & [isSuper ->] & b0 & b1 & b2 & b3 & E0 & Hv & E1 & He & E2).
  simpl in Hv, He. injection Hv as <-. injection He as <-.
  apply (ext_created _ _ E2), (ext_created _ _ E1). simpl.
  apply elem_of_union_l, elem_of_singleton. reflexivity.
Qed.

End Reach.

(** X13: when the visit of a callable returns, every reference in its
    children has left its edges: a reference that is called directly, to a
    function or to a modifier, is an edge from the callable to the target,
    wherever in the body it stands and whatever was visited in between; a
    reference that is not called directly is an edge from the current
    dispatch node to the target and one back. *)
Theorem X13_references_of_a_visited_callable
    (rv : Declaration → Contract → Declaration)
    (rvf : Declaration → Contract → option Z → Declaration)
    (sc : Z → Contract → option Z)
    (callables : gmap Z (list ASTNode)) (contract : Contract)
    (fuel : nat) (c : Z) (b b' : Builder) (t : ASTNode)
    (d : Declaration) (direct : bool) :
  visitCallable rv rvf sc callables contract fuel c b = Done b' →
  t ∈ childrenOf callables c →
  someKind (λ k, referenceTarget rv rvf sc contract k = Some (d, direct)) t →
  if direct then
    hasEdge (m_graph b') (ASTNodeRef c) (ASTNodeRef (declId d))
  else
    hasEdge (m_graph b') (Special (m_currentDispatch b))
      (ASTNodeRef (declId d))
    ∧ hasEdge (m_graph b') (ASTNodeRef (declId d))
        (Special (m_currentDispatch b)).
Proof.
  intros H Hin Ht. destruct fuel as [|fuel]; [discriminate|]. simpl in H.
  apply bind_Done in H as (u & _ & H).
  apply bind_Done in H as (b1 & H1 & [= <-]).
  pose proof (listAccept_reference_edges rv rvf sc contract _
                (visitCallable_extends rv rvf sc callables contract fuel)
                _ _ _ _ _ _ Hin Ht H1) as Hedges.
  destruct direct; [apply Hedges; reflexivity | exact Hedges].
Qed.

Lemma X13_references_witness :
  ∃ b', visitCallable resolveVirtual resolveVirtualFrom superContract
          Override.callables Override.contract 3 23
          (setCurrentNode None initialBuilder)
        = Done b'
      ∧ hasEdge (m_graph b') (ASTNodeRef 23) (ASTNodeRef 21).
Proof.
  eexists.
  match goal with
  | |- ?A ∧ _ => assert (H : A) by (vm_compute; reflexivity)
  end.
  split; [exact H|].
  refine (X13_references_of_a_visited_callable _ _ _ _ _ _ _ _ _
            (block [functionCall (identifier Override.fA true);
                    functionCall Override.superAccess])
            Override.fA true H _ _).
  - unfold childrenOf. simpl. left.
  - apply someKind_child with (t := functionCall Override.superAccess);
      [right; left|].
    apply someKind_child with (t := Override.superAccess); [left|].
    apply someKind_here. reflexivity.
Defined.

Section CreationCode.

Variable rv : Declaration → Contract → Declaration.
Variable rvf : Declaration → Contract → option Z → Declaration.
Variable sc : Z → Contract → option Z.
Variable callables : gmap Z (list ASTNode).
Variable contract : Contract.

Lemma creationLoop_app fuel l1 l2 b :
  creationLoop rv rvf sc callables contract fuel (l1 ++ l2) b =
  (b' ←! creationLoop rv rvf sc callables contract fuel l1 b;
   creationLoop rv rvf sc callables contract fuel l2 b').
Proof.
  revert b. induction l1 as [|cd l1 IHl]; simpl; intros b; [reflexivity|].
  destruct (creationStep _ _ _ _ _ _ _ _) as [b0| |]; simpl;
    [apply IHl | reflexivity..].
Qed.

(** What one iteration of the creation loop records for the code of its
    contract. *)
Lemma creationStep_instantiation fuel cd b b' t C :
  t ∈ stateVariables cd ++ baseContracts cd
      ++ from_option (childrenOf callables) [] (constructor cd) →
  someKind (λ k, ∃ isSuper, k = NewExpression (ContractType C isSuper)) t →
  creationStep rv rvf sc callables contract fuel cd b = Done b' →
  C ∈ createdContracts (m_graph b').
Proof.
  intros Hin Ht H. unfold creationStep in H.
  apply bind_Done in H as (b1 & H1 & H).
  apply bind_Done in H as (b2 & H2 & H3).
  pose proof (visitCallable_extends rv rvf sc callables contract fuel) as HV.
  assert (E3 : ∀ x, x ∈ createdContracts (m_graph b2) →
                    (∀ cur ctor b3,
                       listAccept rv rvf sc contract
                         (visitCallable rv rvf sc callables contract fuel)
                         (childrenOf callables ctor)
                         (add cur (ASTNodeRef ctor) b2) = Done b3 →
                       x ∈ createdContracts (m_graph b3))).
  { intros x Hx cur ctor b3 H3'.
    apply (listAccept_extends _ _ _ _ _ HV) in H3'.
    apply (ext_created _ _ H3'). exact Hx. }
  assert (Hfin : C ∈ createdContracts (m_graph b2) →
                 C ∈ createdContracts (m_graph b')).
  { intros Hx. destruct (constructor cd) as [ctor|];
      [|injection H3 as <-; exact Hx].
    destruct (m_currentNode b2) as [cur|]; [|discriminate].
    apply bind_Done in H3 as (b3 & H3 & [= <-]). simpl.
    eapply E3; eassumption. }
  apply elem_of_app in Hin as [Hin|Hin].
  - apply Hfin.
    apply (ext_created _ _ (listAccept_extends _ _ _ _ _ HV _ _ _ H2)).
    eapply listAccept_instantiation; eassumption.
  - apply elem_of_app in Hin as [Hin|Hin].
    + apply Hfin. eapply listAccept_instantiation; eassumption.
    + destruct (constructor cd) as [ctor|]; simpl in Hin;
        [|apply elem_of_nil in Hin; destruct Hin].
      destruct (m_currentNode b2) as [cur|]; [|discriminate].
      apply bind_Done in H3 as (b3 & H3 & [= <-]). simpl.
      eapply listAccept_instantiation; eassumption.
Qed.

Lemma creationStep_reference fuel cd b b' t d direct current :
  m_currentNode b = Some current →
  t ∈ stateVariables cd ++ baseContracts cd →
  someKind (λ k, referenceTarget rv rvf sc contract k = Some (d, direct)) t →
  creationStep rv rvf sc callables contract fuel cd b = Done b' →
  if direct then
    hasEdge (m_graph b') current (ASTNodeRef (declId d))
  else
    hasEdge (m_graph b') (Special (m_currentDispatch b))
      (ASTNodeRef (declId d))
    ∧ hasEdge (m_graph b') (ASTNodeRef (declId d))
        (Special (m_currentDispatch b)).
Proof.
  intros Hcur Hin Ht H.
  pose proof (creationStep_grows _ _ _ _ _ _ _ _ _ _ Hcur H) as (_ & _ & _).
  unfold creationStep in H.
  apply bind_Done in H as (b1 & H1 & H).
  apply bind_Done in H as (b2 & H2 & H3).
  pose proof (visitCallable_extends rv rvf sc callables contract fuel) as HV.
  pose proof (listAccept_extends _ _ _ _ _ HV _ _ _ H1) as E1.
  pose proof (listAccept_extends _ _ _ _ _ HV _ _ _ H2) as E2.
  assert (S3 : subgraph (m_graph b2) (m_graph b')).
  { destruct (constructor cd) as [ctor|];
      [|injection H3 as <-; apply subgraph_refl].
    destruct (m_currentNode b2) as [cur|]; [|discriminate].
    apply bind_Done in H3 as (b3 & H3 & [= <-]). simpl.
    eapply subgraph_trans; [apply add_subgraph|].
    apply extends_subgraph. eapply listAccept_extends; eassumption. }
  assert (Hb2 :
    if direct then
      hasEdge (m_graph b2) current (ASTNodeRef (declId d))
    else
      hasEdge (m_graph b2) (Special (m_currentDispatch b))
        (ASTNodeRef (declId d))
      ∧ hasEdge (m_graph b2) (ASTNodeRef (declId d))
          (Special (m_currentDispatch b))).
  { apply elem_of_app in Hin as [Hin|Hin].
    - pose proof (listAccept_reference_edges _ _ _ _ _ HV _ _ _ _ _ _
                    Hin Ht H1) as Hedges.
      destruct direct.
      + apply (ext_edges _ _ E2), Hedges, Hcur.
      + destruct Hedges as [Ha Hb].
        split; apply (ext_edges _ _ E2); assumption.
    - pose proof (listAccept_reference_edges _ _ _ _ _ HV _ _ _ _ _ _
                    Hin Ht H2) as Hedges.
      rewrite (ext_dispatch _ _ E1) in Hedges.
      destruct direct; [|exact Hedges].
      apply Hedges. rewrite (ext_node _ _ E1). exact Hcur. }
  destruct direct.
  - apply (proj1 S3), Hb2.
  - destruct Hb2 as [Ha Hb]. split; apply (proj1 S3); assumption.
Qed.

End CreationCode.

Lemma creationLoop_instantiation rv rvf sc callables contract fuel cd t C l :
  cd ∈ l →
  t ∈ stateVariables cd ++ baseContracts cd
      ++ from_option (childrenOf callables) [] (constructor cd) →
  someKind (λ k, ∃ isSuper, k = NewExpression (ContractType C isSuper)) t →
  ∀ b b' current,
    m_currentNode b = Some current →
    creationLoop rv rvf sc callables contract fuel l b = Done b' →
    C ∈ createdContracts (m_graph b').
Proof.
  intros Hcd Hin Ht. induction l as [|cd0 l IHl]; intros b b' current Hcur H.
  - apply elem_of_nil in Hcd. destruct Hcd.
  - simpl in H. apply bind_Done in H as (b0 & H0 & H).
    pose proof (creationStep_grows _ _ _ _ _ _ _ _ _ _ Hcur H0)
      as (_ & _ & Hnode).
    assert (Hcur0 : ∃ cur0, m_currentNode b0 = Some cur0).
    { destruct (constructor cd0); [destruct Hnode|]; eauto. }
    destruct Hcur0 as [cur0 Hcur0].
    apply elem_of_cons in Hcd as [<-|Hcd]; [|eapply IHl; eassumption].
    pose proof (creationLoop_grows _ _ _ _ _ _ _ _ _ _ Hcur0 H)
      as ((_ & Hcreated) & _).
    apply Hcreated. eapply creationStep_instantiation; eassumption.
Qed.

Lemma create_subgraph rv rvf sc callables contract fuel b1 b3 :
  interfaceLoop rv rvf sc callables contract fuel
    (interfaceFunctionList (definition contract))
    (setCurrentDispatch InternalDispatch (setCurrentNode None b1))
  = Done b3 →
  subgraph (m_graph b1)
    (m_graph
       (addEntry (receiveFunction (definition contract))
          (addEntry (fallbackFunction (definition contract))
             (add (Special InternalDispatch)
                (Special InternalCreationDispatch) b3)))).
Proof.
  intros H3. apply interfaceLoop_grows in H3.
  eapply subgraph_trans; [exact H3|].
  eapply subgraph_trans; [apply add_subgraph|].
  eapply subgraph_trans; apply addEntry_subgraph.
Qed.

(** X14: every contract instantiated in the code that runs at creation is
    a created contract of the graph: an instantiation expression anywhere
    in a state variable, in a base-contract specifier or in the constructor
    of a linearized base contract is recorded. *)
Theorem X14_instantiations_of_creation_code
    (rv : Declaration → Contract → Declaration)
    (rvf : Declaration → Contract → option Z → Declaration)
    (sc : Z → Contract → option Z)
    (callables : gmap Z (list ASTNode)) (contract : Contract)
    (fuel : nat) (g : ContractCallGraph)
    (cd : ContractDefinition) (t : ASTNode) (C : Z) :
  cd ∈ linearizedBaseContracts contract →
  t ∈ stateVariables cd ++ baseContracts cd
      ++ from_option (childrenOf callables) [] (constructor cd) →
  someKind (λ k, ∃ isSuper, k = NewExpression (ContractType C isSuper)) t →
  create rv rvf sc callables contract fuel = Done g →
  C ∈ createdContracts g.
Proof.
  intros Hcd Hin Ht H.
  apply create_Done in H as (b1 & b3 & H1 & H3 & ->).
  apply (proj2 (create_subgraph _ _ _ _ _ _ _ _ H3)).
  assert (Hrev : cd ∈ rev (linearizedBaseContracts contract)).
  { apply list_elem_of_In, in_rev. rewrite rev_involutive.
    apply list_elem_of_In, Hcd. }
  eapply creationLoop_instantiation;
    [exact Hrev|exact Hin|exact Ht| |exact H1].
  reflexivity.
Qed.

Lemma X14_instantiations_witness :
  5 ∈ createdContracts
        (mkGraph
           {[Special InternalDispatch :=
               {[Special InternalCreationDispatch]};
             Special EntryCreation := {[ASTNodeRef 10]}]}
           {[5]}).
Proof.
  refine (X14_instantiations_of_creation_code resolveVirtual
            resolveVirtualFrom superContract Instantiation.callables
            Instantiation.contract 2%nat _ Instantiation.N
            (block [functionCall Instantiation.newC]) 5 _ _ _ _).
  - simpl. left.
  - simpl. left.
  - apply someKind_child with (t := functionCall Instantiation.newC);
      [left|].
    apply someKind_child with (t := Instantiation.newC); [left|].
    apply someKind_here. exists false. reflexivity.
  - vm_compute. reflexivity.
Defined.

(** X15: a reference in a state variable or a base-contract specifier of a
    linearized base contract is an edge of the node that is current when
    the contract has its turn in the order of creation: the constructor of
    the latest contract before it that has one, [EntryCreation] if there
    is none.  A reference there that is not called directly goes through
    [InternalCreationDispatch]. *)
Theorem X15_references_of_creation_code
    (rv : Declaration → Contract → Declaration)
    (rvf : Declaration → Contract → option Z → Declaration)
    (sc : Z → Contract → option Z)
    (callables : gmap Z (list ASTNode)) (contract : Contract)
    (fuel : nat) (g : ContractCallGraph)
    (before after : list ContractDefinition) (cd : ContractDefinition)
    (t : ASTNode) (d : Declaration) (direct : bool) :
  rev (linearizedBaseContracts contract) = before ++ cd :: after →
  t ∈ stateVariables cd ++ baseContracts cd →
  someKind (λ k, referenceTarget rv rvf sc contract k = Some (d, direct)) t →
  create rv rvf sc callables contract fuel = Done g →
  if direct then
    hasEdge g
      (default (Special EntryCreation) (last (constructorsOf before)))
      (ASTNodeRef (declId d))
  else
    hasEdge g (Special InternalCreationDispatch) (ASTNodeRef (declId d))
    ∧ hasEdge g (ASTNodeRef (declId d)) (Special InternalCreationDispatch).
Proof.
  intros Hrev Hin Ht H.
  apply create_Done in H as (b1 & b3 & H1 & H3 & ->).
  pose proof (create_subgraph _ _ _ _ _ _ _ _ H3) as [S3 _].
  rewrite Hrev, creationLoop_app in H1.
  apply bind_Done in H1 as (bp & Hp & H1).
  simpl in H1. apply bind_Done in H1 as (b0 & H0 & H1).
  pose proof (creationLoop_grows _ _ _ _ _ _ _ initialBuilder _
                (Special EntryCreation) eq_refl Hp) as (_ & Hdp & _ & Hnp).
  pose proof (creationStep_grows _ _ _ _ _ _ _ _ _ _ Hnp H0)
    as (_ & _ & Hnode).
  assert (Hcur0 : ∃ cur0, m_currentNode b0 = Some cur0).
  { destruct (constructor cd); [destruct Hnode|]; eauto. }
  destruct Hcur0 as [cur0 Hcur0].
  pose proof (creationLoop_grows _ _ _ _ _ _ _ _ _ _ Hcur0 H1)
    as ((S1 & _) & _).
  pose proof (creationStep_reference _ _ _ _ _ _ _ _ _ _ _ _ _ Hnp Hin Ht H0)
    as Hedges.
  rewrite Hdp in Hedges. simpl in Hedges.
  destruct direct.
  - apply S3, S1, Hedges.
  - destruct Hedges as [Ha Hb]. split; apply S3, S1; assumption.
Qed.

Lemma X15_references_witness :
  hasEdge
    (mkGraph
       {[Special InternalDispatch := {[Special InternalCreationDispatch]};
         Special EntryCreation := {[ASTNodeRef 11]};
         ASTNodeRef 11 := {[ASTNodeRef 20; ASTNodeRef 12]}]}
       ∅)
    (ASTNodeRef 11) (ASTNodeRef 20).
Proof.
  refine (X15_references_of_creation_code resolveVirtual resolveVirtualFrom
            superContract BaseArguments.callables BaseArguments.contract
            4%nat _ [BaseArguments.A] [] BaseArguments.B
            BaseArguments.specifier BaseArguments.f true _ _ _ _).
  - reflexivity.
  - simpl. left.
  - apply someKind_child
      with (t := functionCall (identifier BaseArguments.f true));
      [right; left|].
    apply someKind_child with (t := identifier BaseArguments.f true);
      [left|].
    apply someKind_here. reflexivity.
  - vm_compute. reflexivity.
Defined.

(** ** A callable nothing refers to is not read *)

Section Unreferenced.

Variable rv : Declaration → Contract → Declaration.
Variable rvf : Declaration → Contract → option Z → Declaration.
Variable sc : Z → Contract → option Z.
Variable contract : Contract.
Variable u : Z.

Section BodyWalk.

Variables V V' : Z → Builder → Result Builder.
Hypothesis V_agree : ∀ c b, c ≠ u → V c b = V' c b.

Lemma processFunction_other d direct b :
  declId d ≠ u →
  processFunction V d direct b = processFunction V' d direct b.
Proof using V_agree.
  intros Hne. unfold processFunction.
  match goal with
  | |- (if ?c then _ else _) = _ => destruct c
  end; [reflexivity | apply V_agree, Hne].
Qed.

Lemma visit_other k b :
  refersNotTo rv rvf sc contract u k →
  visit rv contract V k b = visit rv contract V' k b.
Proof using V_agree.
  unfold refersNotTo. intros Hk.
  destruct k as [[d|] l t c|t| | |]; simpl; try reflexivity.
  unfold visit_Identifier.
  destruct (isCallableDeclaration d) eqn:Hd; [|reflexivity].
  destruct l; simpl; try reflexivity.
  destruct t as [[]| | |]; try reflexivity.
  rewrite (processFunction_other (rv d contract) c b); [reflexivity|].
  eapply Hk. simpl. rewrite Hd. reflexivity.
Qed.

Lemma endVisit_other k b :
  refersNotTo rv rvf sc contract u k →
  endVisit rv rvf sc contract V k b = endVisit rv rvf sc contract V' k b.
Proof using V_agree.
  unfold refersNotTo. intros Hk.
  destruct k as [|t|t d l e c|m l|]; simpl; try reflexivity.
  - unfold endVisit_MemberAccess.
    destruct t as [[]| | |]; try reflexivity.
    destruct d as [d|]; [|reflexivity].
    destruct (bool_decide (declKind d = FunctionDefinition)) eqn:Hd;
      [|reflexivity].
    destruct l; simpl.
    + apply processFunction_other. eapply Hk. simpl. rewrite Hd.
      reflexivity.
    + reflexivity.
    + destruct e as [kd|C s|[kd|C [|]|e0|]|]; simpl; try reflexivity;
        apply processFunction_other; eapply Hk; simpl; rewrite Hd;
        reflexivity.
  - unfold endVisit_ModifierInvocation.
    destruct m as [m|]; [|reflexivity].
    destruct (bool_decide (declKind m = ModifierDefinition)) eqn:Hm;
      [|reflexivity].
    destruct l; simpl; try reflexivity;
      apply processFunction_other; eapply Hk; simpl; rewrite Hm;
      reflexivity.
Qed.

Lemma accept_other t :
  allKinds (refersNotTo rv rvf sc contract u) t →
  ∀ b, accept rv rvf sc contract V t b = accept rv rvf sc contract V' t b.
Proof using V_agree.
  induction t as [kind children IH] using ASTNode_ind.
  intros Hall b. inversion Hall as [k ch Hk Hch]; subst.
  rewrite !accept_unfold, (visit_other kind b Hk).
  destruct (visit rv contract V' kind b) as [b1| |]; simpl;
    try reflexivity.
  assert (HL : ∀ b1, listAccept rv rvf sc contract V children b1 =
                     listAccept rv rvf sc contract V' children b1).
  { clear Hall Hk b1. induction IH as [|c l Hc _ IHl]; simpl; intros b1;
      [reflexivity|].
    apply Forall_cons in Hch as [Hc1 Hl]. rewrite (Hc Hc1).
    destruct (accept rv rvf sc contract V' c b1); simpl;
      [apply IHl, Hl | reflexivity..]. }
  rewrite HL.
  destruct (listAccept rv rvf sc contract V' children b1); simpl;
    [apply endVisit_other, Hk | reflexivity..].
Qed.

Lemma listAccept_other l :
  Forall (allKinds (refersNotTo rv rvf sc contract u)) l →
  ∀ b, listAccept rv rvf sc contract V l b =
       listAccept rv rvf sc contract V' l b.
Proof using V_agree.
  induction l as [|c l IHl]; simpl; intros Hall b; [reflexivity|].
  apply Forall_cons in Hall as [Hc Hl]. rewrite (accept_other c Hc).
  destruct (accept rv rvf sc contract V' c b); simpl;
    [apply IHl, Hl | reflexivity..].
Qed.

End BodyWalk.

End Unreferenced.

Section UnreferencedCallable.

Variable rv : Declaration → Contract → Declaration.
Variable rvf : Declaration → Contract → option Z → Declaration.
Variable sc : Z → Contract → option Z.
Variable callables : gmap Z (list ASTNode).
Variable contract : Contract.
Variable u : Z.
Variable body : list ASTNode.

Hypothesis callables_other :
  ∀ c l, c ≠ u → callables !! c = Some l →
         Forall (allKinds (refersNotTo rv rvf sc contract u)) l.

Lemma visitCallable_other fuel :
  ∀ c b, c ≠ u →
    visitCallable rv rvf sc callables contract fuel c b =
    visitCallable rv rvf sc (<[u := body]> callables) contract fuel c b.
Proof using callables_other.
  induction fuel as [|fuel IH]; intros c b Hne; [reflexivity|]. simpl.
  unfold childrenOf. rewrite lookup_insert_ne by congruence.
  destruct (solAssert _); simpl; try reflexivity.
  rewrite (listAccept_other rv rvf sc contract u _ _ IH); [reflexivity|].
  destruct (callables !! c) as [l|] eqn:Hc; simpl; [|constructor].
  eapply callables_other; eassumption.
Qed.

Lemma listAccept_visitCallable_other fuel l b :
  Forall (allKinds (refersNotTo rv rvf sc contract u)) l →
  listAccept rv rvf sc contract
    (visitCallable rv rvf sc callables contract fuel) l b =
  listAccept rv rvf sc contract
    (visitCallable rv rvf sc (<[u := body]> callables) contract fuel) l b.
Proof using callables_other.
  intros Hl. apply listAccept_other with (u := u); [|exact Hl].
  apply visitCallable_other.
Qed.

Lemma creationLoop_other fuel l :
  Forall (λ cd,
            Forall (allKinds (refersNotTo rv rvf sc contract u))
              (stateVariables cd)
            ∧ Forall (allKinds (refersNotTo rv rvf sc contract u))
                (baseContracts cd)
            ∧ constructor cd ≠ Some u) l →
  ∀ b, creationLoop rv rvf sc callables contract fuel l b =
       creationLoop rv rvf sc (<[u := body]> callables) contract fuel l b.
Proof using callables_other.
  induction l as [|cd l IHl]; simpl; intros Hall b; [reflexivity|].
  apply Forall_cons in Hall as [(Hsv & Hbc & Hctor) Hl].
  assert (Hstep :
    creationStep rv rvf sc callables contract fuel cd b =
    creationStep rv rvf sc (<[u := body]> callables) contract fuel cd b).
  { unfold creationStep.
    rewrite (listAccept_visitCallable_other fuel _ b Hsv).
    destruct (listAccept _ _ _ _ _ (stateVariables cd) b) as [b1| |];
      simpl; try reflexivity.
    rewrite (listAccept_visitCallable_other fuel _ b1 Hbc).
    destruct (listAccept _ _ _ _ _ (baseContracts cd) b1) as [b2| |];
      simpl; try reflexivity.
    destruct (constructor cd) as [ctor|]; [|reflexivity].
    destruct (m_currentNode b2) as [cur|]; [|reflexivity].
    assert (Hne : ctor ≠ u) by congruence.
    assert (Hch : childrenOf (<[u := body]> callables) ctor =
                  childrenOf callables ctor).
    { unfold childrenOf. rewrite lookup_insert_ne by congruence.
      reflexivity. }
    rewrite Hch, listAccept_visitCallable_other; [reflexivity|].
    unfold childrenOf.
    destruct (callables !! ctor) as [l0|] eqn:Hc; simpl; [|constructor].
    eapply callables_other; eassumption. }
  rewrite Hstep. clear Hstep.
  destruct (creationStep rv rvf sc (<[u := body]> callables) contract fuel
              cd b) as [b0| |]; simpl; [apply IHl, Hl | reflexivity..].
Qed.

Lemma interfaceLoop_other fuel l :
  (∀ d, d ∈ l → declKind d = FunctionDefinition → declId d ≠ u) →
  ∀ b, interfaceLoop rv rvf sc callables contract fuel l b =
       interfaceLoop rv rvf sc (<[u := body]> callables) contract fuel l b.
Proof using callables_other.
  induction l as [|d l IHl]; simpl; intros Hall b; [reflexivity|].
  assert (Hstep :
    interfaceStep rv rvf sc callables contract fuel d b =
    interfaceStep rv rvf sc (<[u := body]> callables) contract fuel d b).
  { unfold interfaceStep. case_bool_decide as Hk; [|reflexivity].
    destruct (isKey _ b); [reflexivity|].
    rewrite visitCallable_other; [reflexivity|].
    apply Hall; [left | exact Hk]. }
  rewrite Hstep. clear Hstep.
  destruct (interfaceStep rv rvf sc (<[u := body]> callables) contract fuel
              d b) as [b0| |]; simpl; [|reflexivity..].
  apply IHl. intros d0 Hin. apply Hall. right. exact Hin.
Qed.

End UnreferencedCallable.

(** X16: a callable that no reference is resolved to, that is no function
    definition of the interface list and no constructor of a linearized
    base contract is never read: the outcome is the same whatever its
    children are.  This is the case of a fallback or receive function that
    nothing calls: it gets its edge from [Entry], and nothing of its body
    is in the graph. *)
Theorem X16_unreferenced_callable_is_not_read
    (rv : Declaration → Contract → Declaration)
    (rvf : Declaration → Contract → option Z → Declaration)
    (sc : Z → Contract → option Z)
    (callables : gmap Z (list ASTNode)) (contract : Contract)
    (u : Z) (body : list ASTNode) (fuel : nat) :
  (∀ c l, c ≠ u → callables !! c = Some l →
          Forall (allKinds (refersNotTo rv rvf sc contract u)) l) →
  Forall (λ cd,
            Forall (allKinds (refersNotTo rv rvf sc contract u))
              (stateVariables cd)
            ∧ Forall (allKinds (refersNotTo rv rvf sc contract u))
                (baseContracts cd)
            ∧ constructor cd ≠ Some u)
    (linearizedBaseContracts contract) →
  (∀ d, d ∈ interfaceFunctionList (definition contract) →
        declKind d = FunctionDefinition → declId d ≠ u) →
  create rv rvf sc callables contract fuel =
  create rv rvf sc (<[u := body]> callables) contract fuel.
Proof.
  intros Hcallables Hlin Hinterface.
  unfold create, FunctionCallGraphBuilder.
  rewrite (creationLoop_other rv rvf sc callables contract u body
             Hcallables fuel) by (apply Forall_rev, Hlin).
  destruct (creationLoop rv rvf sc (<[u := body]> callables) contract fuel
              (rev (linearizedBaseContracts contract)) initialBuilder)
    as [b1| |]; simpl; try reflexivity.
  rewrite (interfaceLoop_other rv rvf sc callables contract u body
             Hcallables fuel _ Hinterface).
  reflexivity.
Qed.

Lemma X16_unreferenced_witness :
  createGraph Interface.callables Interface.contract 4 =
  createGraph
    (<[70 := [block [functionCall (identifier Interface.f true)]]]>
       Interface.callables)
    Interface.contract 4.
Proof.
  apply X16_unreferenced_callable_is_not_read.
  - intros c l Hne Hl. unfold Interface.callables in Hl.
    apply lookup_insert_Some in Hl as [[<- <-]|[_ Hl]];
      [repeat constructor; intros ? ? [=]|].
    apply lookup_insert_Some in Hl as [[<- <-]|[_ Hl]];
      [destruct Hne; reflexivity|].
    apply lookup_singleton_Some in Hl as [<- <-].
    repeat constructor; intros ? ? [=].
  - repeat constructor; try (intros ? ? [=]); discriminate.
  - intros d Hin Hk. simpl in Hin.
    apply elem_of_cons in Hin as [->|Hin]; [discriminate|].
    apply elem_of_cons in Hin as [->|Hin]; [discriminate|].
    apply elem_of_nil in Hin. destruct Hin.
Defined.
